(** * mumble-migrator: the migration engine (commands/default.ts)

    A shallow embedding of the command that copies the thirteen Murmur
    tables from a MySQL database into a SQLite file, and the properties
    of its orchestration, validation and per-table transfer.

    The two database engines, the TypeORM driver and the logger are not
    part of the program.  They are modelled by a [World]: what each
    engine stores and answers, which connections are open, and the
    sequence of observable events (log lines, statements handed to a
    connection, connection closes). *)

From stdpp Require Import gmap strings list fin_maps.

Set Default Proof Using "Type".

(** ** JavaScript values, objects and the two ramda helpers *)

(** A column value as the drivers hand it over: null, a number, a string,
    a buffer, or the Date the source driver makes of a TIMESTAMP or
    DATETIME column (slog.msgtime, users.last_active, bans.start), kept as
    its milliseconds since the epoch. *)
Inductive Scalar :=
| SNull
| SInt (z : Z)
| SStr (s : string)
| SBlob (bytes : string)
| SDate (ms : Z).

#[global] Instance Scalar_eq_dec : EqDecision Scalar.
Proof. solve_decision. Defined.

(** The result of a property access: [None] is JavaScript's [undefined]. *)
Abbreviation JsVal := (option Scalar).

(** A plain object: properties in insertion order. *)
Abbreviation Row := (list (string * Scalar)).

(** [row.k] *)
Fixpoint get_prop (row : Row) (k : string) : JsVal :=
  match row with
  | [] => None
  | (k', v) :: rest => if decide (k' = k) then Some v else get_prop rest k
  end.

(** ramda [values(obj)] followed by [[0]]. *)
Definition first_value (row : Row) : JsVal := head (row.*2).

(** ramda [pick(names, obj)]: the listed properties that [obj] has, in the
    order of [names]. *)
Fixpoint pick (names : list string) (obj : Row) : Row :=
  match names with
  | [] => []
  | n :: rest =>
      match get_prop obj n with
      | Some v => (n, v) :: pick rest obj
      | None => pick rest obj
      end
  end.

(** ramda [without(xs, list)]: [list] minus the elements found in [xs]. *)
Definition without {A} `{EqDecision A} (xs : list A) (l : list A) : list A :=
  filter (λ e, e ∉ xs) l.

(** [{...obj, k: v}] *)
Fixpoint obj_set (obj : Row) (k : string) (v : Scalar) : Row :=
  match obj with
  | [] => [(k, v)]
  | (k', v') :: rest =>
      if decide (k' = k) then (k, v) :: rest else (k', v') :: obj_set rest k v
  end.

(** ** Statements, errors, events *)

Inductive ConnName := Mysql | Sqlite.

#[global] Instance ConnName_eq_dec : EqDecision ConnName.
Proof. solve_decision. Defined.

(** The five statement shapes the program sends. *)
Inductive Sql :=
| ShowTables
| SelectSqliteMaster
| SelectAll (table : string)
| DeleteFrom (table : string)
| InsertInto (table : string) (cols : list string).

#[global] Instance Sql_eq_dec : EqDecision Sql.
Proof. solve_decision. Defined.

(** The statement text of the source. *)
Definition sql_text (q : Sql) : string :=
  match q with
  | ShowTables => "show tables"
  | SelectSqliteMaster => "select name from sqlite_master where type = 'table'"
  | SelectAll t => "select * from " +:+ t
  | DeleteFrom t => "delete from " +:+ t
  | InsertInto t cols =>
      "insert into " +:+ t +:+ "(" +:+ String.concat ", " cols +:+ ") values("
        +:+ String.concat ", " (map (λ _, "?") cols) +:+ ")"
  end.

Inductive Err :=
| ConnectError (c : ConnName)
| QueryError (c : ConnName) (q : Sql) (params : list JsVal).

#[global] Instance Err_eq_dec : EqDecision Err.
Proof. solve_decision. Defined.

Inductive Level := Info | Error.

#[global] Instance Level_eq_dec : EqDecision Level.
Proof. solve_decision. Defined.

(** What an observer of the run sees.
    [Log] is a call of [info] or [error] with a fixed text and the optional
    error payload; [LogEntity what v] is the template line
    that starts with Migrating, names the kind of entity [what] and
    interpolates the value [v]; [Connect] is a call of
    [createConnection]; [Query] is a call of [connection.query];
    [Close] is a call of [connection.close]. *)
Inductive Event :=
| Log (lvl : Level) (msg : string) (payload : option Err)
| LogEntity (what : string) (v : JsVal)
| Connect (c : ConnName) (options : Row)
| Query (c : ConnName) (q : Sql) (params : list JsVal)
| Close (c : ConnName).

#[global] Instance Event_eq_dec : EqDecision Event.
Proof. solve_decision. Defined.

(** ** The world *)

Record World := mkWorld {
  mysql_up : bool;                      (* does createConnection succeed *)
  sqlite_up : bool;
  mysql_catalog : option (list Row);    (* answer to [show tables] *)
  sqlite_catalog : option (list Row);   (* answer to the sqlite_master query *)
  mysql_db : gmap string (list Row);    (* source tables *)
  sqlite_db : gmap string (list Row);   (* destination tables *)
  opened : list ConnName;               (* connections currently open *)
  trace : list Event;                   (* oldest first *)
}.

Definition set_sqlite_db (f : gmap string (list Row) → gmap string (list Row))
    (w : World) : World :=
  mkWorld (mysql_up w) (sqlite_up w) (mysql_catalog w) (sqlite_catalog w)
    (mysql_db w) (f (sqlite_db w)) (opened w) (trace w).

Definition set_opened (f : list ConnName → list ConnName) (w : World) : World :=
  mkWorld (mysql_up w) (sqlite_up w) (mysql_catalog w) (sqlite_catalog w)
    (mysql_db w) (sqlite_db w) (f (opened w)) (trace w).

Definition set_trace (f : list Event → list Event) (w : World) : World :=
  mkWorld (mysql_up w) (sqlite_up w) (mysql_catalog w) (sqlite_catalog w)
    (mysql_db w) (sqlite_db w) (opened w) (f (trace w)).

(** The world after the events [evs] were observed. *)
Definition add_events (w : World) (evs : list Event) : World :=
  set_trace (λ t, t ++ evs) w.

Notation "w +ₑ evs" := (add_events w evs) (at level 50, left associativity).

(** ** A state and exception monad for the async methods

    An [await]ed call either yields a value or throws; the world changes
    made before a throw stay. *)

Inductive Outcome (A : Type) :=
| Ok (a : A)
| Throw (e : Err).
Arguments Ok {A} a.
Arguments Throw {A} e.

Definition M (A : Type) : Type := World → Outcome A * World.

Definition ret {A} (a : A) : M A := λ w, (Ok a, w).

Definition throw {A} (e : Err) : M A := λ w, (Throw e, w).

Definition bind {A B} (m : M A) (k : A → M B) : M B :=
  λ w, match m w with
       | (Ok a, w') => k a w'
       | (Throw e, w') => (Throw e, w')
       end.

(** [try { body } catch (err) { handler(err) }] *)
Definition try_catch {A} (body : M A) (handler : Err → M A) : M A :=
  λ w, match body w with
       | (Ok a, w') => (Ok a, w')
       | (Throw e, w') => handler e w'
       end.

Declare Scope m_scope.
Delimit Scope m_scope with M.
Notation "'let*' x := m 'in' k" := (bind m (λ x, k))
  (at level 100, x name, m at next level, right associativity) : m_scope.
Notation "m ;; k" := (bind m (λ _, k))
  (at level 100, right associativity) : m_scope.
Open Scope m_scope.

Definition emit (e : Event) : M unit :=
  λ w, (Ok (), w +ₑ [e]).

Definition info (msg : string) : M unit := emit (Log Info msg None).
Definition error (msg : string) (payload : option Err) : M unit :=
  emit (Log Error msg payload).

(** ** The engines behind the two connections *)

(** What the SQLite driver stores for a bound value: a Date goes in as
    the number of its milliseconds since the epoch, every other value as
    it is. *)
Definition stored_value (v : Scalar) : Scalar :=
  match v with
  | SDate ms => SInt ms
  | _ => v
  end.

(** What the SQLite driver stores for a bound parameter: an [undefined]
    parameter is left unbound, which SQL reads as NULL. *)
Definition bind_param (v : JsVal) : Scalar :=
  match v with
  | Some x => stored_value x
  | None => SNull
  end.

(** A statement handed to a connection together with its parameters. *)
Abbreviation Pending := (Sql * list JsVal)%type.

Section Engine.

(** The destination's per-row constraints: [accepts t content row] tells
    whether inserting [row] into table [t] holding [content] succeeds. *)
Variable accepts : string → list Row → Row → bool.

(** The order in which the destination settles statements that were issued
    without waiting for each other: the index (modulo the number pending)
    of the one settled next. *)
Variable sched : list Pending → nat.

(** The source engine answers the catalog listing and whole-table reads;
    a read of a table it does not have fails. *)
Definition mysql_exec (q : Sql) (params : list JsVal) : M (list Row) :=
  λ w,
    match q with
    | ShowTables =>
        match mysql_catalog w with
        | Some rows => (Ok rows, w)
        | None => (Throw (QueryError Mysql q params), w)
        end
    | SelectAll t =>
        match mysql_db w !! t with
        | Some rows => (Ok rows, w)
        | None => (Throw (QueryError Mysql q params), w)
        end
    | _ => (Throw (QueryError Mysql q params), w)
    end.

(** The destination engine: catalog listing, full clear, and insertion of
    one row built from the column list and the bound parameters. *)
Definition sqlite_exec (q : Sql) (params : list JsVal) : M (list Row) :=
  λ w,
    match q with
    | SelectSqliteMaster =>
        match sqlite_catalog w with
        | Some rows => (Ok rows, w)
        | None => (Throw (QueryError Sqlite q params), w)
        end
    | DeleteFrom t =>
        match sqlite_db w !! t with
        | Some _ => (Ok [], set_sqlite_db (λ db, <[t := []]> db) w)
        | None => (Throw (QueryError Sqlite q params), w)
        end
    | InsertInto t cols =>
        let row := zip cols (bind_param <$> params) in
        match sqlite_db w !! t with
        | Some content =>
            if accepts t content row
            then (Ok [], set_sqlite_db (λ db, <[t := content ++ [row]]> db) w)
            else (Throw (QueryError Sqlite q params), w)
        | None => (Throw (QueryError Sqlite q params), w)
        end
    | _ => (Throw (QueryError Sqlite q params), w)
    end.

Definition exec (c : ConnName) : Sql → list JsVal → M (list Row) :=
  match c with Mysql => mysql_exec | Sqlite => sqlite_exec end.

(** [await connection.query(q, params)] *)
Definition query (c : ConnName) (q : Sql) (params : list JsVal) : M (list Row) :=
  emit (Query c q params) ;; exec c q params.

(** [await connection.close()]; closing does not fail in this model. *)
Definition close (c : ConnName) : M unit :=
  emit (Close c) ;; λ w, (Ok (), set_opened (filter (λ x, x ≠ c)) w).

(** [await createConnection(options)] *)
Definition createConnection (c : ConnName) (options : Row) : M ConnName :=
  emit (Connect c options) ;;
  λ w, if (match c with Mysql => mysql_up w | Sqlite => sqlite_up w end)
       then (Ok c, set_opened (λ o, o ++ [c]) w)
       else (Throw (ConnectError c), w).

(** ** Connection provisioner *)

Definition connectMysql (config : Row) : M (option ConnName) :=
  info "Connecting to mysql..." ;;
  try_catch
    (let* c := createConnection Mysql
                 (obj_set (obj_set config "name" (SStr "mysql"))
                    "type" (SStr "mysql")) in
     ret (Some c))
    (λ err, error "Unable to connect." (Some err) ;; ret None).

(** The [filename] property of the argument becomes the [database] option;
    an absent [filename] leaves it out. *)
Definition connectSqlite (config : Row) : M (option ConnName) :=
  info "Connecting to sqlite..." ;;
  try_catch
    (let* c := createConnection Sqlite
                 ([("name", SStr "sqlite"); ("type", SStr "sqlite")]
                    ++ match get_prop config "filename" with
                       | Some f => [("database", f)]
                       | None => []
                       end) in
     ret (Some c))
    (λ err, error "Unable to connect." (Some err) ;; ret None).

(** ** Table migrators *)

(** The three things in which the thirteen [migrate*] methods differ:
    the table, the column list of the insert, and the optional
    Migrating line with the kind of entity and the column it shows. *)
Record TableSpec := mkSpec {
  table : string;
  columns : list string;
  entity : option (string * string);
}.

(** [rows.map(async row => { ...; await this.sqlite.query(insert, [...]) })]
    up to each callback's first suspension: for every row in turn, the
    optional log line and the call of [query]; nothing is awaited. *)
Fixpoint issue_inserts (s : TableSpec) (rows : list Row) : M (list Pending) :=
  match rows with
  | [] => ret []
  | row :: rest =>
      match entity s with
      | Some (what, col) => emit (LogEntity what (get_prop row col))
      | None => ret ()
      end ;;
      let p := (InsertInto (table s) (columns s), get_prop row <$> columns s) in
      emit (Query Sqlite p.1 p.2) ;;
      let* ps := issue_inserts s rest in
      ret (p :: ps)
  end.

(** The destination settles the issued statements one at a time in the
    order [sched] picks; a rejected statement does not stop the others.
    The result lists every statement with its outcome, in settling order. *)
Fixpoint settle (fuel : nat) (pending : list Pending) (w : World)
    : list (Pending * Outcome (list Row)) * World :=
  match fuel with
  | 0 => ([], w)
  | S fuel' =>
      let i := sched pending `mod` length pending in
      match pending !! i with
      | None => ([], w)
      | Some p =>
          let '(r, w1) := sqlite_exec p.1 p.2 w in
          let '(rs, w2) := settle fuel' (delete i pending) w1 in
          ((p, r) :: rs, w2)
      end
  end.

Fixpoint first_rejection {A} (rs : list (Pending * Outcome A)) : option Err :=
  match rs with
  | [] => None
  | (_, Throw e) :: _ => Some e
  | (_, Ok _) :: rest => first_rejection rest
  end.

(** [await Promise.all(promises)]: fulfilled when all are, rejected with
    the first rejection otherwise.  The statements still pending at the
    first rejection are settled all the same; the model delivers the
    rejection once the destination has settled them. *)
Definition promise_all (pending : list Pending) : M unit :=
  λ w, let '(rs, w') := settle (length pending) pending w in
       match first_rejection rs with
       | Some e => (Throw e, w')
       | None => (Ok (), w')
       end.

(** The common body of the thirteen methods: read, clear, fan out. *)
Definition migrate (s : TableSpec) : M unit :=
  let* rows := query Mysql (SelectAll (table s)) [] in
  query Sqlite (DeleteFrom (table s)) [] ;;
  let* pending := issue_inserts s rows in
  promise_all pending.

Definition aclSpec := mkSpec "acl"
  ["server_id"; "channel_id"; "priority"; "user_id"; "group_name";
   "apply_here"; "apply_sub"; "grantpriv"; "revokepriv"] None.
Definition bansSpec := mkSpec "bans"
  ["server_id"; "base"; "mask"; "name"; "hash"; "reason"; "start"; "duration"]
  None.
Definition channelInfoSpec := mkSpec "channel_info"
  ["server_id"; "channel_id"; "key"; "value"] None.
Definition channelLinksSpec := mkSpec "channel_links"
  ["server_id"; "channel_id"; "link_id"] None.
Definition channelsSpec := mkSpec "channels"
  ["server_id"; "channel_id"; "parent_id"; "name"; "inheritacl"]
  (Some ("channel", "name")).
Definition configSpec := mkSpec "config" ["server_id"; "key"; "value"] None.
Definition groupMembersSpec := mkSpec "group_members"
  ["group_id"; "server_id"; "user_id"; "addit"] None.
Definition groupsSpec := mkSpec "groups"
  ["group_id"; "server_id"; "name"; "channel_id"; "inherit"; "inheritable"]
  (Some ("group", "name")).
Definition metaSpec := mkSpec "meta" ["keystring"; "value"] None.
Definition serversSpec := mkSpec "servers" ["server_id"] None.
Definition slogSpec := mkSpec "slog" ["server_id"; "msg"; "msgtime"] None.
Definition userInfoSpec := mkSpec "user_info"
  ["server_id"; "user_id"; "key"; "value"] None.
Definition usersSpec := mkSpec "users"
  ["server_id"; "user_id"; "name"; "pw"; "salt"; "kdfiterations";
   "lastchannel"; "texture"; "last_active"]
  (Some ("user", "name")).

Definition migrateAcl : M unit := migrate aclSpec.
Definition migrateBans : M unit := migrate bansSpec.
Definition migrateChannelInfo : M unit := migrate channelInfoSpec.
Definition migrateChannelLinks : M unit := migrate channelLinksSpec.
Definition migrateChannels : M unit := migrate channelsSpec.
Definition migrateConfig : M unit := migrate configSpec.
Definition migrateGroupMembers : M unit := migrate groupMembersSpec.
Definition migrateGroups : M unit := migrate groupsSpec.
Definition migrateMeta : M unit := migrate metaSpec.
Definition migrateServers : M unit := migrate serversSpec.
Definition migrateSlog : M unit := migrate slogSpec.
Definition migrateUserInfos : M unit := migrate userInfoSpec.
Definition migrateUsers : M unit := migrate usersSpec.

(** ** Schema validator *)

Definition expectedTables : list string :=
  ["acl"; "bans"; "channel_info"; "channel_links"; "channels"; "config";
   "group_members"; "groups"; "meta"; "servers"; "slog"; "user_info"; "users"].

(** [without(found, expected)] at the types of its two uses: the expected
    names that equal none of the values found. *)
Definition missing (found : list JsVal) (expected : list string) : list string :=
  filter (λ n, Some (SStr n) ∉ found) expected.

Definition checkTables : M bool :=
  try_catch
    (let* mysqlTables := query Mysql ShowTables [] in
     let* sqliteTables := query Sqlite SelectSqliteMaster [] in
     let missingMysqlTables := missing (first_value <$> mysqlTables) expectedTables in
     if bool_decide (0 < length missingMysqlTables) then
       error ("Mysql is missing the following tables: "
                +:+ String.concat ", " missingMysqlTables) None ;;
       ret false
     else
       let missingSqliteTables :=
         missing ((λ row, get_prop row "name") <$> sqliteTables) expectedTables in
       if bool_decide (0 < length missingSqliteTables) then
         error ("Sqlite is missing the following tables: "
                  +:+ String.concat ", " missingSqliteTables) None ;;
         ret false
       else ret true)
    (λ err, error "Error determining exising tables" (Some err) ;; ret false).

(** ** Orchestrator *)

(** One of the thirteen [try { info; await migrate; info } catch] blocks. *)
Definition step (label : string) (m : M unit) : M unit :=
  try_catch
    (info ("migrating " +:+ label +:+ "...") ;; m ;; info "Done.")
    (λ err, error "Error." (Some err)).

Definition is_absent (c : option ConnName) : bool :=
  match c with Some _ => false | None => true end.

Definition execute (config : Row) : M unit :=
  let* mysql := connectMysql
                  (pick ["host"; "password"; "username"; "database"; "port"] config) in
  let* sqlite := connectSqlite (pick ["filename"] config) in
  if is_absent mysql || is_absent sqlite then
    error "One database couldn't be connected. Terminating." None
  else
    (let* ok := checkTables in
     if negb ok then error "Databases not ok. Terminating." None else ret ()) ;;
    step "Servers" migrateServers ;;
    step "Channels" migrateChannels ;;
    step "Users" migrateUsers ;;
    step "Groups" migrateGroups ;;
    step "Acl" migrateAcl ;;
    step "Bans" migrateBans ;;
    step "ChannelInfo" migrateChannelInfo ;;
    step "ChannelLinks" migrateChannelLinks ;;
    step "Config" migrateConfig ;;
    step "GroupMembers" migrateGroupMembers ;;
    step "Meta" migrateMeta ;;
    step "Slog" migrateSlog ;;
    step "UserInfos" migrateUserInfos ;;
    info "Closing sqlite..." ;;
    close Sqlite ;;
    info "Closing mysql..." ;;
    close Mysql ;;
    info "Good bye".

End Engine.

(** ** Vocabulary of the properties *)

(** The destination holding [content] in table [t], all else as in [w]. *)
Definition with_table (t : string) (content : list Row) (w : World) : World :=
  set_sqlite_db (λ db, <[t := content]> db) w.

(** The thirteen tables in the order [execute] migrates them, each with the
    label of its log line. *)
Definition plan : list (string * TableSpec) :=
  [("Servers", serversSpec); ("Channels", channelsSpec); ("Users", usersSpec);
   ("Groups", groupsSpec); ("Acl", aclSpec); ("Bans", bansSpec);
   ("ChannelInfo", channelInfoSpec); ("ChannelLinks", channelLinksSpec);
   ("Config", configSpec); ("GroupMembers", groupMembersSpec);
   ("Meta", metaSpec); ("Slog", slogSpec); ("UserInfos", userInfoSpec)].

Definition all_specs : list TableSpec := plan.*2.

(** The order of the tables as the specification lists it. *)
Definition migration_order : list string :=
  ["servers"; "channels"; "users"; "groups"; "acl"; "bans"; "channel_info";
   "channel_links"; "config"; "group_members"; "meta"; "slog"; "user_info"].

(** The parameters the insert of [s] binds for [row], and the row the
    destination stores for them. *)
Definition params_of (s : TableSpec) (row : Row) : list JsVal :=
  get_prop row <$> columns s.

Definition issued (s : TableSpec) (rows : list Row) : list Pending :=
  (λ row, (InsertInto (table s) (columns s), params_of s row)) <$> rows.

Definition stored (cols : list string) (p : Pending) : Row :=
  zip cols (bind_param <$> p.2).

(** [row] restricted to the columns of [s], in their declared order, each
    value as the destination driver stores it, a column the row lacks read
    as NULL. *)
Definition project (s : TableSpec) (row : Row) : Row :=
  zip (columns s) (bind_param <$> params_of s row).



(** The events of the synchronous part of the fan-out. *)
Definition issue_events (s : TableSpec) (rows : list Row) : list Event :=
  rows ≫= λ row,
    match entity s with
    | Some (what, col) => [LogEntity what (get_prop row col)]
    | None => []
    end ++ [Query Sqlite (InsertInto (table s) (columns s)) (params_of s row)].

Definition is_ok {A B} (r : A * Outcome B) : bool :=
  match r.2 with Ok _ => true | Throw _ => false end.

(** The rows of the statements that were fulfilled, in settling order. *)
Definition kept {B} (cols : list string) (rs : list (Pending * Outcome B)) : list Row :=
  stored cols <$> (filter is_ok rs).*1.

(** [Settled accepts t cols content rs]: starting from a table holding
    [content], each statement of [rs] was accepted or rejected by the
    constraints on the content at its turn, accepted rows being appended. *)
Inductive Settled (accepts : string → list Row → Row → bool)
    (t : string) (cols : list string)
    : list Row → list (Pending * Outcome (list Row)) → Prop :=
| Settled_nil content : Settled accepts t cols content []
| Settled_ok content p rs :
    accepts t content (stored cols p) = true →
    Settled accepts t cols (content ++ [stored cols p]) rs →
    Settled accepts t cols content ((p, Ok []) :: rs)
| Settled_rejected content p rs :
    accepts t content (stored cols p) = false →
    Settled accepts t cols content rs →
    Settled accepts t cols content ((p, Throw (QueryError Sqlite p.1 p.2)) :: rs).

(** What [Promise.all] delivers for the settled statements [rs]. *)
Definition result_of (rs : list (Pending * Outcome (list Row))) : Outcome unit :=
  match first_rejection rs with Some e => Throw e | None => Ok () end.

(** The event is a statement on table [t] or a Migrating line. *)
Definition table_event (t : string) (e : Event) : Prop :=
  match e with
  | Query _ (SelectAll t') _ | Query _ (DeleteFrom t') _
  | Query _ (InsertInto t' _) _ => t' = t
  | LogEntity _ _ => True
  | _ => False
  end.

Definition is_query (e : Event) : Prop :=
  match e with Query _ _ _ => True | _ => False end.

Definition is_close (e : Event) : Prop :=
  match e with Close _ => True | _ => False end.

#[global] Instance is_query_dec e : Decision (is_query e).
Proof. destruct e; simpl; apply _. Defined.

#[global] Instance is_close_dec e : Decision (is_close e).
Proof. destruct e; simpl; apply _. Defined.

(** The line that ends a step: Done after a migrator that returned, Error
    with the exception after one that threw. *)
Definition fin (r : Outcome unit) : Event :=
  match r with
  | Ok _ => Log Info "Done." None
  | Throw e => Log Error "Error." (Some e)
  end.

Definition is_step_error (e : Event) : bool :=
  match e with
  | Log Error msg (Some _) => bool_decide (msg = "Error.")
  | _ => false
  end.

Definition start (label : string) : Event :=
  Log Info ("migrating " +:+ label +:+ "...") None.

(** The events of one step: its start line, what the migrator did, and
    its closing line. *)
Definition block (label : string) (b : list Event * Outcome unit) : list Event :=
  start label :: b.1 ++ [fin b.2].

(** [runs accepts sched steps w w']: from [w], each migrator of [steps] is
    invoked in turn in the world its predecessor left, whatever that one's
    outcome [b.2], doing [b.1] and then logging the outcome; [w'] is the
    world after the last. *)
Fixpoint runs accepts sched (steps : list (string * TableSpec))
    (bs : list (list Event * Outcome unit)) (w w' : World) : Prop :=
  match steps, bs with
  | [], [] => w' = w
  | (label, s) :: steps', b :: bs' =>
      ∃ w1, migrate accepts sched s (w +ₑ [start label]) = (b.2, w1) ∧
            trace w1 = trace w ++ start label :: b.1 ∧
            runs accepts sched steps' bs' (w1 +ₑ [fin b.2]) w'
  | _, _ => False
  end.

(** The events of connecting, by backend and by whether it comes up. *)
Definition mysql_options (config : Row) : Row :=
  obj_set (obj_set (pick ["host"; "password"; "username"; "database"; "port"] config)
             "name" (SStr "mysql")) "type" (SStr "mysql").

Definition sqlite_options (config : Row) : Row :=
  [("name", SStr "sqlite"); ("type", SStr "sqlite")]
    ++ match get_prop (pick ["filename"] config) "filename" with
       | Some f => [("database", f)]
       | None => []
       end.

Definition connect_events (c : ConnName) (options : Row) (up : bool) : list Event :=
  [Log Info (match c with
             | Mysql => "Connecting to mysql..."
             | Sqlite => "Connecting to sqlite..."
             end) None;
   Connect c options]
  ++ (if up then [] else [Log Error "Unable to connect." (Some (ConnectError c))]).

Definition provisioning_events (config : Row) (w : World) : list Event :=
  connect_events Mysql (mysql_options config) (mysql_up w)
    ++ connect_events Sqlite (sqlite_options config) (sqlite_up w).

Definition closing_events : list Event :=
  [Log Info "Closing sqlite..." None; Close Sqlite;
   Log Info "Closing mysql..." None; Close Mysql;
   Log Info "Good bye" None].

(** The names a catalog answer lists, per backend. *)
Definition mysql_names (rows : list Row) : list JsVal := first_value <$> rows.
Definition sqlite_names (rows : list Row) : list JsVal :=
  (λ row, get_prop row "name") <$> rows.

(** What it is for a catalog answer to list the table [n].  The source
    answers [show tables] with one row per table, the name in its first
    column; the destination answers with one row per table, the name in
    the column [name]. *)
Definition lists_mysql (rows : list Row) (n : string) : Prop :=
  ∃ k rest, (k, SStr n) :: rest ∈ rows.

Definition lists_sqlite (rows : list Row) (n : string) : Prop :=
  ∃ before after,
    before ++ ("name", SStr n) :: after ∈ rows ∧ "name" ∉ before.*1.

(** A catalog answer lists every expected table. *)
Definition complete (names : list JsVal) : Prop :=
  ∀ n, n ∈ expectedTables → Some (SStr n) ∈ names.

(** The world with connection [c] opened, and with it closed. *)
Definition connected (c : ConnName) (w : World) : World :=
  set_opened (λ o, o ++ [c]) w.

Definition disconnected (c : ConnName) (w : World) : World :=
  set_opened (filter (λ x, x ≠ c)) w.

(** The world after both attempts to connect. *)
Definition provisioned (config : Row) (w : World) : World :=
  let w1 := if mysql_up w then connected Mysql w else w in
  let w2 := if sqlite_up w then connected Sqlite w1 else w1 in
  w2 +ₑ provisioning_events config w.

(** The line [execute] logs when [checkTables] returned [ok]. *)
Definition verdict (ok : bool) : list Event :=
  if ok then [] else [Log Error "Databases not ok. Terminating." None].

(** The event is neither a close nor about a table. *)
Definition outside_steps (e : Event) : Prop :=
  ¬ is_close e ∧ ∀ t, ¬ table_event t e.

(** The block [b] is an invocation of the migrator of table [t]: it begins
    with the read of [t] and holds only events of [t]. *)
Definition invocation_of (t : string) (b : list Event * Outcome unit) : Prop :=
  head b.1 = Some (Query Mysql (SelectAll t) []) ∧ Forall (table_event t) b.1.

(** The thirteen steps of [execute] followed by [k]. *)
Definition steps_then accepts sched (steps : list (string * TableSpec))
    (k : M unit) : M unit :=
  foldr (λ ls acc, step ls.1 (migrate accepts sched ls.2) ;; acc) k steps.

(** The validation phase and the closing phase of [execute]. *)
Definition validating accepts : M unit :=
  let* ok := checkTables accepts in
  if negb ok then error "Databases not ok. Terminating." None else ret ().

Definition closing : M unit :=
  info "Closing sqlite..." ;;
  close Sqlite ;;
  info "Closing mysql..." ;;
  close Mysql ;;
  info "Good bye".

(** ** Example worlds *)

(** A destination that rejects a row its table already holds. *)
Definition unique_rows : string → list Row → Row → bool :=
  λ _ content row, bool_decide (row ∉ content).

(** A destination that settles the second pending statement first. *)
Definition second_first : list Pending → nat := λ _, 1.

Definition example_config : Row :=
  [("host", SStr "localhost"); ("password", SStr "secret");
   ("username", SStr "murmur"); ("database", SStr "mumble");
   ("filename", SStr "murmur.sqlite")].

Definition server (n : Z) : Row := [("server_id", SInt n)].

Definition servers (ids : list Z) : list Row := server <$> ids.

Definition channel (cid : Z) (name : string) : Row :=
  [("server_id", SInt 1); ("channel_id", SInt cid); ("parent_id", SNull);
   ("name", SStr name); ("inheritacl", SInt 1)].

(** Source [servers] with ids 1, 2, 3; destination with stale ids 1 to 5;
    no other table on either side and no catalog answer. *)
Definition stale_servers : World :=
  mkWorld true true None None
    {[ "servers" := servers [1; 2; 3]%Z ]}
    {[ "servers" := servers [1; 2; 3; 4; 5]%Z ]} [] [].

(** Source [servers] holding the id 1 twice. *)
Definition repeated_server : World :=
  mkWorld true true None None
    {[ "servers" := servers [1; 2; 1; 3]%Z ]}
    {[ "servers" := servers [7]%Z ]} [] [].

(** Source [channels] empty, destination with two stale channels. *)
Definition empty_channels : World :=
  mkWorld true true None None
    {[ "channels" := [] ]}
    {[ "channels" := [channel 0 "Root"; channel 1 "Lobby"] ]} [] [].

(** Source without a [channels] table, destination with two stale channels. *)
Definition unreadable_channels : World :=
  mkWorld true true None None
    ∅
    {[ "channels" := [channel 0 "Root"; channel 1 "Lobby"] ]} [] [].

(** Catalog answers: the source lists every expected table but [users], the
    destination every expected table but [acl]. *)
Definition mysql_listing (names : list string) : list Row :=
  (λ n, [("Tables_in_mumble", SStr n)]) <$> names.

Definition sqlite_listing (names : list string) : list Row :=
  (λ n, [("name", SStr n)]) <$> names.

Definition both_incomplete : World :=
  mkWorld true true
    (Some (mysql_listing (filter (λ n, n ≠ "users") expectedTables)))
    (Some (sqlite_listing (filter (λ n, n ≠ "acl") expectedTables)))
    ∅ ∅ [] [].

(** The source cannot be reached, the destination file opens. *)
Definition mysql_down : World :=
  mkWorld false true None None ∅ {[ "servers" := servers [4; 5]%Z ]} [] [].

(** ** Vocabulary of the further properties *)

(** The events of a run that are no step's: log lines, connects, closes
    and the two catalog queries. *)
Definition fixed_event (e : Event) : Prop :=
  match e with
  | Log _ _ _ | Connect _ _ | Close _ => True
  | Query Mysql ShowTables [] => True
  | Query Sqlite SelectSqliteMaster [] => True
  | _ => False
  end.

(** The statements the program has: the catalog listing and whole-table
    reads on the source; the catalog listing, clears and inserts on the
    destination; reads, clears and inserts only on the thirteen tables, an
    insert with the column list of its method and one parameter per
    column.  An event that is no statement passes. *)
Definition sent_by_run (e : Event) : Prop :=
  match e with
  | Query Mysql ShowTables [] => True
  | Query Sqlite SelectSqliteMaster [] => True
  | Query Mysql (SelectAll t) [] => t ∈ migration_order
  | Query Sqlite (DeleteFrom t) [] => t ∈ migration_order
  | Query Sqlite (InsertInto t cols) params =>
      (∃ s, s ∈ all_specs ∧ table s = t ∧ columns s = cols)
      ∧ length params = length cols
  | Query _ _ _ => False
  | _ => True
  end.

Definition is_connect (e : Event) : Prop :=
  match e with Connect _ _ => True | _ => False end.

Definition is_entity (e : Event) : Prop :=
  match e with LogEntity _ _ => True | _ => False end.

#[global] Instance is_connect_dec e : Decision (is_connect e).
Proof. destruct e; simpl; apply _. Defined.

#[global] Instance is_entity_dec e : Decision (is_entity e).
Proof. destruct e; simpl; apply _. Defined.

(** The Migrating lines of the method of [s] for [rows]: one per row, in
    row order, for channels, groups and users; none for the other ten. *)
Definition entity_lines (s : TableSpec) (rows : list Row) : list Event :=
  if decide (table s = "channels")
  then (λ row, LogEntity "channel" (get_prop row "name")) <$> rows
  else if decide (table s = "groups")
  then (λ row, LogEntity "group" (get_prop row "name")) <$> rows
  else if decide (table s = "users")
  then (λ row, LogEntity "user" (get_prop row "name")) <$> rows
  else [].

(** Two worlds with the same databases and the same reachability. *)
Definition same_data (w w' : World) : Prop :=
  mysql_up w' = mysql_up w ∧ sqlite_up w' = sqlite_up w
  ∧ mysql_db w' = mysql_db w ∧ sqlite_db w' = sqlite_db w.

(** Two worlds that differ at most in what the catalog queries answer. *)
Definition same_but_catalogs (w w' : World) : Prop :=
  same_data w w' ∧ opened w' = opened w ∧ trace w' = trace w.

(** The stale-servers world with catalogs that list every expected
    table. *)
Definition stale_servers_validated : World :=
  mkWorld true true
    (Some (mysql_listing expectedTables)) (Some (sqlite_listing expectedTables))
    {[ "servers" := servers [1; 2; 3]%Z ]}
    {[ "servers" := servers [1; 2; 3; 4; 5]%Z ]} [] [].

(** A destination without constraints, and one that settles the first
    pending statement first. *)
Definition accepts_all : string → list Row → Row → bool := λ _ _ _, true.

Definition first_first : list Pending → nat := λ _, 0.

(** Catalogs that list every expected table but [users] on the source:
    once in the expected order, once reversed and with repeats. *)
Definition users_unlisted : World :=
  mkWorld true true
    (Some (mysql_listing (filter (λ n, n ≠ "users") expectedTables)))
    (Some (sqlite_listing expectedTables)) ∅ ∅ [] [].

Definition users_unlisted_shuffled : World :=
  mkWorld true true
    (Some (mysql_listing
             (reverse (filter (λ n, n ≠ "users") expectedTables)
                ++ ["acl"; "acl"])))
    (Some (sqlite_listing ("meta" :: reverse expectedTables))) ∅ ∅ [] [].

(** The source [servers] of the stale-servers world over another
    destination table, and over a destination without the table. *)
Definition other_servers : World :=
  mkWorld true true None None
    {[ "servers" := servers [1; 2; 3]%Z ]}
    {[ "servers" := servers [7]%Z ]} [] [].

Definition no_destination_table : World :=
  mkWorld true true None None
    {[ "servers" := servers [1; 2; 3]%Z ]} ∅ [] [].

(** Two channels to migrate into an empty destination table. *)
Definition two_channels : World :=
  mkWorld true true None None
    {[ "channels" := [channel 0 "Root"; channel 1 "Lobby"] ]}
    {[ "channels" := [] ]} [] [].

(** Both sides have the thirteen tables; the source holds three servers
    and two channels, the destination two stale servers. *)
Definition thirteen_tables (content : string → list Row) : gmap string (list Row) :=
  list_to_map ((λ t, (t, content t)) <$> expectedTables).

Definition full_schema : World :=
  mkWorld true true None None
    (thirteen_tables (λ t, if decide (t = "servers") then servers [1; 2; 3]%Z
                           else if decide (t = "channels")
                           then [channel 0 "Root"; channel 1 "Lobby"]
                           else []))
    (thirteen_tables (λ t, if decide (t = "servers") then servers [4; 5]%Z else []))
    [] [].



(** * Properties *)

(** ** Worlds and events *)

Lemma add_events_app w evs1 evs2 : w +ₑ evs1 +ₑ evs2 = w +ₑ (evs1 ++ evs2).
Proof. unfold add_events, set_trace; simpl. by rewrite <- app_assoc. Qed.

Lemma add_events_nil w : w +ₑ [] = w.
Proof. destruct w; unfold add_events, set_trace; simpl. by rewrite app_nil_r. Qed.

Lemma mysql_db_add_events w evs : mysql_db (w +ₑ evs) = mysql_db w.
Proof. reflexivity. Qed.

Lemma sqlite_db_add_events w evs : sqlite_db (w +ₑ evs) = sqlite_db w.
Proof. reflexivity. Qed.

Lemma with_table_add_events t content w evs :
  with_table t content (w +ₑ evs) = with_table t content w +ₑ evs.
Proof. reflexivity. Qed.

Lemma with_table_same t content w :
  sqlite_db w !! t = Some content → with_table t content w = w.
Proof.
  intros Hl. destruct w; unfold with_table, set_sqlite_db; simpl in *.
  by rewrite insert_id.
Qed.

Lemma with_table_twice t c1 c2 w :
  with_table t c2 (with_table t c1 w) = with_table t c2 w.
Proof.
  unfold with_table, set_sqlite_db; simpl. by rewrite insert_insert_eq.
Qed.

Lemma lookup_with_table t content w :
  sqlite_db (with_table t content w) !! t = Some content.
Proof. unfold with_table; simpl. apply lookup_insert_eq. Qed.

Section Proofs.

Variable accepts : string → list Row → Row → bool.
Variable sched : list Pending → nat.

(** ** The fan-out *)

Lemma issue_inserts_spec s rows w :
  issue_inserts s rows w = (Ok (issued s rows), w +ₑ issue_events s rows).
Proof.
  revert w. induction rows as [|row rows IH]; intros w.
  - simpl. unfold ret. by rewrite add_events_nil.
  - cbn [issue_inserts issued fmap list_fmap].
    change (issue_events s (row :: rows))
      with ((match entity s with
             | Some (what, col) => [LogEntity what (get_prop row col)]
             | None => []
             end ++ [Query Sqlite (InsertInto (table s) (columns s))
                       (params_of s row)]) ++ issue_events s rows).
    unfold bind at 1. destruct (entity s) as [[what col]|].
    + unfold emit, bind. rewrite IH. unfold ret.
      by rewrite !add_events_app.
    + unfold ret at 1. unfold emit, bind. rewrite IH. unfold ret.
      by rewrite !add_events_app.
Qed.

Lemma insert_accepted t cols params content w :
  sqlite_db w !! t = Some content →
  accepts t content (zip cols (bind_param <$> params)) = true →
  sqlite_exec accepts (InsertInto t cols) params w
  = (Ok [], with_table t (content ++ [zip cols (bind_param <$> params)]) w).
Proof. intros Hl Ha. unfold sqlite_exec. by rewrite Hl, Ha. Qed.

Lemma insert_rejected t cols params content w :
  sqlite_db w !! t = Some content →
  accepts t content (zip cols (bind_param <$> params)) = false →
  sqlite_exec accepts (InsertInto t cols) params w
  = (Throw (QueryError Sqlite (InsertInto t cols) params), w).
Proof. intros Hl Ha. unfold sqlite_exec. by rewrite Hl, Ha. Qed.

Lemma kept_cons_ok {B} cols p (b : B) (rs : list (Pending * Outcome B)) :
  kept cols ((p, Ok b) :: rs) = stored cols p :: kept cols rs.
Proof. reflexivity. Qed.

(** The destination settles every pending insert exactly once, in some
    order; the table ends up with the accepted rows appended. *)
Lemma settle_spec t cols fuel pending w content :
  Forall (λ p, p.1 = InsertInto t cols) pending →
  sqlite_db w !! t = Some content →
  length pending ≤ fuel →
  ∃ rs, settle accepts sched fuel pending w = (rs, with_table t (content ++ kept cols rs) w)
        ∧ rs.*1 ≡ₚ pending
        ∧ Settled accepts t cols content rs.
Proof.
  revert pending w content.
  induction fuel as [|fuel IH]; intros pending w content Hall Hl Hlen.
  - destruct pending; [|simpl in Hlen; lia].
    exists []. simpl. split_and!; [|done|constructor].
    unfold kept; simpl. by rewrite app_nil_r, with_table_same.
  - destruct pending as [|p0 pending0].
    { exists []. cbn. split_and!; [|done|constructor].
      unfold kept; simpl. by rewrite app_nil_r, with_table_same. }
    set (pending := p0 :: pending0) in *.
    cbn [settle].
    assert (Hi : sched pending `mod` length pending < length pending).
    { apply Nat.mod_upper_bound. subst pending. simpl. lia. }
    set (i := sched pending `mod` length pending) in *.
    destruct (lookup_lt_is_Some_2 _ _ Hi) as [p Hp]. rewrite Hp.
    assert (Hpq : p.1 = InsertInto t cols).
    { eapply Forall_lookup_1 in Hall; eauto. }
    destruct p as [q params]; simpl in Hpq; subst q. cbn [fst snd].
    assert (Hlen' : length (delete i pending) ≤ fuel).
    { rewrite length_delete by eauto. subst pending; simpl in *. lia. }
    pose proof (Forall_delete _ _ i Hall) as Hall'.
    pose proof (delete_Permutation _ _ _ Hp) as Hperm.
    destruct (accepts t content (zip cols (bind_param <$> params))) eqn:Ha.
    + rewrite (insert_accepted _ _ _ _ _ Hl Ha).
      destruct (IH (delete i pending)
                  (with_table t (content ++ [zip cols (bind_param <$> params)]) w)
                  _ Hall' (lookup_with_table _ _ _) Hlen')
        as (rs & Hrs & Hp' & Hs).
      rewrite Hrs. eexists; split_and!.
      * f_equal. rewrite with_table_twice, kept_cons_ok.
        unfold stored; simpl. by rewrite <- app_assoc.
      * simpl. etrans; [|symmetry; exact Hperm]. by constructor.
      * by apply Settled_ok.
    + rewrite (insert_rejected _ _ _ _ _ Hl Ha).
      destruct (IH (delete i pending) _ _ Hall' Hl Hlen')
        as (rs & Hrs & Hp' & Hs).
      rewrite Hrs. eexists; split_and!.
      * f_equal.
      * simpl. etrans; [|symmetry; exact Hperm]. by constructor.
      * by apply (Settled_rejected _ _ _ _ (InsertInto t cols, params)).
Qed.

(** ** What [Promise.all] delivers *)

Lemma first_rejection_None {A} (rs : list (Pending * Outcome A)) :
  first_rejection rs = None ↔ Forall is_ok rs.
Proof.
  induction rs as [|[p [a|e]] rs IH]; simpl.
  - split; [constructor|done].
  - rewrite IH. split; [by constructor|by inversion 1].
  - split; [done|]. inversion 1 as [|?? Hh]; subst. by destruct Hh.
Qed.

Lemma first_rejection_Some {A} (rs : list (Pending * Outcome A)) e :
  first_rejection rs = Some e →
  ∃ done p rest, rs = done ++ (p, Throw e) :: rest ∧ Forall is_ok done.
Proof.
  induction rs as [|[p [a|e']] rs IH]; simpl; intros H; [done| |].
  - destruct (IH H) as (dn & p' & rest & -> & Hd).
    exists ((p, Ok a) :: dn), p', rest. split; [done|by constructor].
  - injection H as ->. by exists [], p, rs.
Qed.

Lemma kept_all_ok {B} cols (rs : list (Pending * Outcome B)) :
  Forall is_ok rs → kept cols rs = stored cols <$> rs.*1.
Proof.
  intros H. unfold kept. f_equal. f_equal.
  induction H as [|r rs Hr _ IH]; [done|].
  rewrite filter_cons_True by done. by f_equal.
Qed.

Lemma kept_app {B} cols (rs1 rs2 : list (Pending * Outcome B)) :
  kept cols (rs1 ++ rs2) = kept cols rs1 ++ kept cols rs2.
Proof. unfold kept. by rewrite filter_app, !fmap_app. Qed.

Lemma kept_submseteq {B} cols (rs : list (Pending * Outcome B)) :
  kept cols rs ⊆+ stored cols <$> rs.*1.
Proof. unfold kept. apply fmap_submseteq, fmap_submseteq, sublist_submseteq, sublist_filter. Qed.

Lemma stored_issued s rows :
  stored (columns s) <$> issued s rows = project s <$> rows.
Proof. unfold issued. rewrite <- list_fmap_compose. done. Qed.

Lemma Settled_app_ok t cols content dn rs :
  Forall is_ok dn →
  Settled accepts t cols content (dn ++ rs) →
  Settled accepts t cols (content ++ kept cols dn) rs.
Proof.
  intros Hd. revert content.
  induction Hd as [|[p r] dn Hr _ IH]; intros content Hs; simpl in *.
  - unfold kept; simpl. by rewrite app_nil_r.
  - inversion Hs as [|? ? ? Ha Hs'|]; subst; [|by destruct Hr].
    rewrite kept_cons_ok. apply IH in Hs'. by rewrite <- app_assoc in Hs'.
Qed.

Lemma Settled_error t cols content rs p e :
  Settled accepts t cols content rs → (p, Throw e) ∈ rs →
  e = QueryError Sqlite p.1 p.2.
Proof.
  induction 1 as [|? ? ? ? ? IH|? ? ? ? ? IH]; intros Hin.
  - by apply not_elem_of_nil in Hin.
  - apply elem_of_cons in Hin as [?|?]; [done|by apply IH].
  - apply elem_of_cons in Hin as [Heq|?]; [by injection Heq as -> ->|by apply IH].
Qed.

(** ** Rows and column lists *)




(** ** One table migrator *)

Lemma issue_events_queries s rows :
  filter is_query (issue_events s rows)
  = (λ row, Query Sqlite (InsertInto (table s) (columns s)) (params_of s row))
      <$> rows.
Proof.
  unfold issue_events. induction rows as [|row rows IH]; [done|].
  rewrite bind_cons, filter_app, IH, fmap_cons.
  by destruct (entity s) as [[??]|].
Qed.

Lemma migrate_read_fails s w :
  mysql_db w !! table s = None →
  migrate accepts sched s w
  = (Throw (QueryError Mysql (SelectAll (table s)) []),
     w +ₑ [Query Mysql (SelectAll (table s)) []]).
Proof.
  intros Hr. unfold migrate, query, bind, emit; simpl.
  unfold mysql_exec; simpl. by rewrite Hr.
Qed.

Lemma migrate_clear_fails s w rows :
  mysql_db w !! table s = Some rows →
  sqlite_db w !! table s = None →
  migrate accepts sched s w
  = (Throw (QueryError Sqlite (DeleteFrom (table s)) []),
     w +ₑ [Query Mysql (SelectAll (table s)) [];
           Query Sqlite (DeleteFrom (table s)) []]).
Proof.
  intros Hr Hd. unfold migrate, query, bind, emit; simpl.
  unfold mysql_exec; simpl. rewrite Hr.
  unfold sqlite_exec; simpl.
  change (sqlite_db (w +ₑ [Query Mysql (SelectAll (table s)) []]))
    with (sqlite_db w).
  rewrite Hd. by rewrite add_events_app.
Qed.

Lemma migrate_writes s w rows old :
  mysql_db w !! table s = Some rows →
  sqlite_db w !! table s = Some old →
  ∃ rs,
    migrate accepts sched s w
    = (result_of rs,
       with_table (table s) (kept (columns s) rs)
         (w +ₑ (Query Mysql (SelectAll (table s)) []
                  :: Query Sqlite (DeleteFrom (table s)) []
                  :: issue_events s rows)))
    ∧ rs.*1 ≡ₚ issued s rows
    ∧ Settled accepts (table s) (columns s) [] rs.
Proof.
  intros Hr Hd. unfold migrate, query, bind, emit; simpl.
  unfold mysql_exec; simpl. rewrite Hr.
  unfold sqlite_exec; simpl.
  change (sqlite_db (w +ₑ [Query Mysql (SelectAll (table s)) []]))
    with (sqlite_db w).
  rewrite Hd, issue_inserts_spec. unfold promise_all.
  set (w1 := set_sqlite_db _ _ +ₑ _).
  destruct (settle_spec (table s) (columns s) (length (issued s rows))
              (issued s rows) w1 [])
    as (rs & Hrs & Hperm & Hs).
  - unfold issued. apply Forall_fmap, Forall_true. done.
  - subst w1. simpl. apply lookup_insert_eq.
  - done.
  - exists rs. split; [|by split].
    rewrite Hrs. unfold result_of. subst w1. simpl app.
    change (set_sqlite_db (λ db, <[table s:=[]]> db) ?x)
      with (with_table (table s) [] x).
    rewrite <- !with_table_add_events, with_table_twice, !add_events_app.
    simpl app. by destruct (first_rejection rs).
Qed.


(** C8. For a table whose read and clear succeeded: every row's insert is
    issued once and settled once (nothing is retried); the step fails
    exactly when some insert was rejected, with the error of the first
    rejected one; and the table keeps every row whose insert was accepted,
    those accepted before the first rejection among them (no rollback). *)
Theorem migrate_insert_failure s w rows old :
  mysql_db w !! table s = Some rows →
  sqlite_db w !! table s = Some old →
  ∃ rs w',
    migrate accepts sched s w = (result_of rs, w')
    ∧ rs.*1 ≡ₚ issued s rows
    ∧ Settled accepts (table s) (columns s) [] rs
    ∧ trace w' = trace w ++ Query Mysql (SelectAll (table s)) []
                   :: Query Sqlite (DeleteFrom (table s)) []
                   :: issue_events s rows
    ∧ filter is_query (issue_events s rows)
      = (λ row, Query Sqlite (InsertInto (table s) (columns s)) (params_of s row))
          <$> rows
    ∧ sqlite_db w' !! table s = Some (kept (columns s) rs)
    ∧ ((∃ r, r ∈ rs ∧ ¬ is_ok r) ↔ ∃ e, result_of rs = Throw e)
    ∧ (∀ e, result_of rs = Throw e →
         ∃ dn p rest,
           rs = dn ++ (p, Throw e) :: rest
           ∧ Forall is_ok dn
           ∧ e = QueryError Sqlite p.1 p.2
           ∧ accepts (table s) (stored (columns s) <$> dn.*1)
               (stored (columns s) p) = false
           ∧ stored (columns s) <$> dn.*1 `prefix_of` kept (columns s) rs).
Proof.
  intros Hr Hd.
  destruct (migrate_writes s w rows old Hr Hd) as (rs & Hrs & Hperm & Hset).
  eexists rs, _. split; [exact Hrs|]. split_and!; try done.
  - apply issue_events_queries.
  - apply lookup_with_table.
  - unfold result_of. split.
    + intros (r & Hin & Hnok).
      destruct (first_rejection rs) as [e|] eqn:Hf; [by exists e|].
      apply first_rejection_None in Hf.
      by eapply Forall_forall in Hf.
    + intros [e He].
      destruct (first_rejection rs) as [e'|] eqn:Hf; [|done].
      apply first_rejection_Some in Hf as (dn & p & rest & -> & _).
      exists (p, Throw e'). split; [|by intros []].
      apply elem_of_app. right. by left.
  - intros e He. unfold result_of in He.
    destruct (first_rejection rs) as [e'|] eqn:Hf; [|done].
    injection He as ->.
    apply first_rejection_Some in Hf as (dn & p & rest & -> & Hdn).
    exists dn, p, rest. split_and!; try done.
    + eapply Settled_error; [exact Hset|].
      apply elem_of_app. right. by left.
    + apply Settled_app_ok in Hset; [|done].
      rewrite kept_all_ok in Hset by done. simpl in Hset.
      inversion Hset; subst. done.
    + rewrite kept_app, kept_all_ok by done. by apply prefix_app_r.
Qed.

(** C9, as the code has it.  The clear is issued whenever the read
    succeeded, whatever the read returned: the table then holds only
    rows that were read, and is empty when none was read.  When the
    read fails the clear is not issued and the table keeps its rows. *)
Theorem migrate_clears_after_read s w old :
  sqlite_db w !! table s = Some old →
  match mysql_db w !! table s with
  | Some rows =>
      Query Sqlite (DeleteFrom (table s)) [] ∈ trace (migrate accepts sched s w).2
      ∧ ∃ dst, sqlite_db (migrate accepts sched s w).2 !! table s = Some dst
               ∧ dst ⊆+ project s <$> rows
               ∧ (rows = [] → dst = [] ∧ (migrate accepts sched s w).1 = Ok ())
  | None =>
      trace (migrate accepts sched s w).2
      = trace w ++ [Query Mysql (SelectAll (table s)) []]
      ∧ sqlite_db (migrate accepts sched s w).2 = sqlite_db w
      ∧ ∃ e, (migrate accepts sched s w).1 = Throw e
  end.
Proof.
  intros Hd. destruct (mysql_db w !! table s) as [rows|] eqn:Hr.
  - destruct (migrate_writes s w rows old Hr Hd) as (rs & Hrs & Hperm & Hset).
    rewrite Hrs. simpl. split.
    + apply elem_of_app. right. right. left.
    + exists (kept (columns s) rs). split_and!.
      * apply lookup_insert_eq.
      * etrans; [apply kept_submseteq|]. by rewrite Hperm, stored_issued.
      * intros ->. apply Permutation_nil_r in Hperm.
        apply fmap_nil_inv in Hperm as ->. done.
  - rewrite migrate_read_fails by done. simpl. eauto.
Qed.

(** ** Schema validator *)

Lemma elem_of_missing found expected n :
  n ∈ missing found expected ↔ n ∈ expected ∧ Some (SStr n) ∉ found.
Proof. unfold missing. rewrite list_elem_of_filter. split; intros [??]; by split. Qed.

Lemma missing_nil found expected :
  missing found expected = [] ↔ ∀ n, n ∈ expected → Some (SStr n) ∈ found.
Proof.
  split.
  - intros Hm n Hn. destruct (decide (Some (SStr n) ∈ found)) as [|Hnot]; [done|].
    assert (n ∈ missing found expected) as Hin by by apply elem_of_missing.
    rewrite Hm in Hin. by apply not_elem_of_nil in Hin.
  - intros Hall. destruct (missing found expected) as [|n l] eqn:Hm; [done|].
    assert (n ∈ missing found expected) as Hin by (rewrite Hm; left).
    apply elem_of_missing in Hin as [Hn Hnot]. by destruct Hnot; apply Hall.
Qed.

Lemma checkTables_mysql_fails w :
  mysql_catalog w = None →
  checkTables accepts w
  = (Ok false,
     w +ₑ [Query Mysql ShowTables [];
           Log Error "Error determining exising tables"
             (Some (QueryError Mysql ShowTables []))]).
Proof.
  intros Hm. unfold checkTables, try_catch, query, bind, emit, error; simpl.
  unfold mysql_exec; simpl. rewrite Hm. unfold emit, ret.
  by rewrite add_events_app.
Qed.

Lemma checkTables_sqlite_fails w mt :
  mysql_catalog w = Some mt →
  sqlite_catalog w = None →
  checkTables accepts w
  = (Ok false,
     w +ₑ [Query Mysql ShowTables []; Query Sqlite SelectSqliteMaster [];
           Log Error "Error determining exising tables"
             (Some (QueryError Sqlite SelectSqliteMaster []))]).
Proof.
  intros Hm Hs. unfold checkTables, try_catch, query, bind, emit, error; simpl.
  unfold mysql_exec, sqlite_exec; simpl. rewrite Hm. simpl. rewrite Hs.
  unfold emit, ret. by rewrite !add_events_app.
Qed.

Lemma checkTables_answered w mt st :
  mysql_catalog w = Some mt →
  sqlite_catalog w = Some st →
  checkTables accepts w
  = match missing (mysql_names mt) expectedTables with
    | [] =>
        match missing (sqlite_names st) expectedTables with
        | [] => (Ok true,
                 w +ₑ [Query Mysql ShowTables []; Query Sqlite SelectSqliteMaster []])
        | ms => (Ok false,
                 w +ₑ [Query Mysql ShowTables []; Query Sqlite SelectSqliteMaster [];
                       Log Error ("Sqlite is missing the following tables: "
                                    +:+ String.concat ", " ms) None])
        end
    | mm => (Ok false,
             w +ₑ [Query Mysql ShowTables []; Query Sqlite SelectSqliteMaster [];
                   Log Error ("Mysql is missing the following tables: "
                                +:+ String.concat ", " mm) None])
    end.
Proof.
  intros Hm Hs. unfold checkTables, try_catch, query, bind, emit, error; simpl.
  unfold mysql_exec, sqlite_exec; simpl. rewrite Hm. simpl. rewrite Hs.
  fold (mysql_names mt) (sqlite_names st).
  destruct (missing (mysql_names mt) expectedTables) as [|m mm] eqn:Hmm.
  - simpl. destruct (missing (sqlite_names st) expectedTables) as [|m ms] eqn:Hms.
    + simpl. unfold ret. by rewrite !add_events_app.
    + rewrite bool_decide_true by (simpl; lia).
      unfold emit, ret. by rewrite !add_events_app.
  - rewrite bool_decide_true by (simpl; lia).
    unfold emit, ret. by rewrite !add_events_app.
Qed.

Lemma missing_complete names :
  missing names expectedTables = [] ↔ complete names.
Proof. apply missing_nil. Qed.

Lemma complete_mono names names' :
  names ⊆ names' → complete names → complete names'.
Proof. intros Hsub Hc n Hn. apply Hsub. by apply Hc. Qed.

Lemma checkTables_true w :
  (checkTables accepts w).1 = Ok true ↔
  ∃ mt st, mysql_catalog w = Some mt ∧ sqlite_catalog w = Some st
           ∧ complete (mysql_names mt) ∧ complete (sqlite_names st).
Proof.
  destruct (mysql_catalog w) as [mt|] eqn:Hm.
  2:{ rewrite checkTables_mysql_fails by done. simpl.
      split; [done|]. by intros (? & ? & ? & _). }
  destruct (sqlite_catalog w) as [st|] eqn:Hs.
  2:{ rewrite (checkTables_sqlite_fails _ mt) by done. simpl.
      split; [done|]. by intros (? & ? & ? & ? & _). }
  rewrite (checkTables_answered _ mt st) by done.
  destruct (missing (mysql_names mt) expectedTables) as [|m mm] eqn:Hmm.
  - destruct (missing (sqlite_names st) expectedTables) as [|m ms] eqn:Hms; simpl.
    + split; [|done]. intros _. exists mt, st.
      split_and!; try done; by apply missing_complete.
    + split; [done|]. intros (? & st' & _ & [= <-] & _ & Hc).
      apply missing_complete in Hc. by rewrite Hc in Hms.
  - simpl. split; [done|]. intros (mt' & ? & [= <-] & _ & Hc & _).
    apply missing_complete in Hc. by rewrite Hc in Hmm.
Qed.

Lemma checkTables_total w :
  ∃ b evs, checkTables accepts w = (Ok b, w +ₑ evs)
           ∧ Forall (λ e, ¬ is_close e ∧ ∀ t, ¬ table_event t e) evs
           ∧ (b = false → ∃ e, e ∈ evs ∧ ∃ msg payload, e = Log Error msg payload).
Proof.
  assert (Hq : ∀ e, e = Query Mysql ShowTables [] ∨ e = Query Sqlite SelectSqliteMaster []
                    ∨ (∃ msg payload, e = Log Error msg payload) →
                    ¬ is_close e ∧ ∀ t, ¬ table_event t e).
  { intros e [->|[->|(? & ? & ->)]]; simpl; (split; [intros []|intros ? []]). }
  destruct (mysql_catalog w) as [mt|] eqn:Hm.
  2:{ rewrite checkTables_mysql_fails by done. do 2 eexists. split; [done|].
      split; [repeat (apply Forall_cons_2; [apply Hq; eauto 6|]); apply Forall_nil_2|].
      intros _. eexists. split; [right; left|eauto]. }
  destruct (sqlite_catalog w) as [st|] eqn:Hs.
  2:{ rewrite (checkTables_sqlite_fails _ mt) by done. do 2 eexists. split; [done|].
      split; [repeat (apply Forall_cons_2; [apply Hq; eauto 6|]); apply Forall_nil_2|].
      intros _. eexists. split; [right; right; left|eauto]. }
  rewrite (checkTables_answered _ mt st) by done.
  destruct (missing (mysql_names mt) expectedTables) as [|m mm] eqn:Hmm.
  - destruct (missing (sqlite_names st) expectedTables) as [|m ms] eqn:Hms.
    + do 2 eexists. split; [done|]. split; [repeat (apply Forall_cons_2; [apply Hq; eauto 6|]); apply Forall_nil_2|done].
    + do 2 eexists. split; [done|]. split; [repeat (apply Forall_cons_2; [apply Hq; eauto 6|]); apply Forall_nil_2|].
      intros _. eexists. split; [right; right; left|eauto].
  - do 2 eexists. split; [done|]. split; [repeat (apply Forall_cons_2; [apply Hq; eauto 6|]); apply Forall_nil_2|].
    intros _. eexists. split; [right; right; left|eauto].
Qed.

Lemma lists_mysql_names mt n :
  lists_mysql mt n ↔ Some (SStr n) ∈ mysql_names mt.
Proof.
  unfold lists_mysql, mysql_names. rewrite list_elem_of_fmap. split.
  - intros (k & rest & Hin). by exists ((k, SStr n) :: rest).
  - intros ([|[k v] rest] & Heq & Hin); [done|].
    injection Heq as <-. by exists k, rest.
Qed.

Lemma get_prop_first row k v :
  get_prop row k = Some v ↔
  ∃ before after, row = before ++ (k, v) :: after ∧ k ∉ before.*1.
Proof.
  induction row as [|[k0 v0] row IH]; simpl.
  - split; [done|]. by intros ([|??] & ? & ? & _).
  - destruct (decide (k0 = k)) as [->|Hne].
    + split.
      * intros [= ->]. exists [], row. split; [done|apply not_elem_of_nil].
      * intros ([|[k1 v1] before] & after & Heq & Hnot).
        -- by injection Heq as ->.
        -- injection Heq as -> -> ->. destruct Hnot. left.
    + rewrite IH. split.
      * intros (before & after & -> & Hnot). exists ((k0, v0) :: before), after.
        split; [done|]. rewrite fmap_cons, not_elem_of_cons. by split.
      * intros ([|[k1 v1] before] & after & Heq & Hnot).
        -- by injection Heq as ->.
        -- injection Heq as -> -> ->. exists before, after. split; [done|].
           rewrite fmap_cons, not_elem_of_cons in Hnot. by destruct Hnot.
Qed.

Lemma lists_sqlite_names st n :
  lists_sqlite st n ↔ Some (SStr n) ∈ sqlite_names st.
Proof.
  unfold lists_sqlite, sqlite_names. rewrite list_elem_of_fmap. split.
  - intros (before & after & Hin & Hnot). eexists. split; [|exact Hin].
    symmetry. apply get_prop_first. by exists before, after.
  - intros (row & Heq & Hin). symmetry in Heq.
    apply get_prop_first in Heq as (before & after & -> & Hnot).
    by exists before, after.
Qed.

Lemma checkTables_listed w :
  (checkTables accepts w).1 = Ok true ↔
  ∃ mt st, mysql_catalog w = Some mt ∧ sqlite_catalog w = Some st
           ∧ (∀ n, n ∈ expectedTables → lists_mysql mt n)
           ∧ (∀ n, n ∈ expectedTables → lists_sqlite st n).
Proof.
  rewrite checkTables_true. unfold complete.
  split; intros (mt & st & Hm & Hs & H1 & H2); exists mt, st;
    (split_and!; [done|done| |]); intros n Hn.
  - by apply lists_mysql_names, H1.
  - by apply lists_sqlite_names, H2.
  - by apply lists_mysql_names, H1.
  - by apply lists_sqlite_names, H2.
Qed.

(** C4. [checkTables] returns true exactly when both catalog queries
    answer and both answers list all thirteen expected names, the source
    in the first column of a row, the destination in the column [name];
    in every other case it returns false, never an exception.  Names
    beyond the expected ones do not matter: a catalog that lists more
    keeps the result true; so the listings of the thirteen tables with
    any further rows give true, and a source listing without users gives
    false.  A failing catalog query gives false. *)
Theorem checkTables_iff_both_complete :
  (∀ w, (checkTables accepts w).1 = Ok true ↔
        ∃ mt st, mysql_catalog w = Some mt ∧ sqlite_catalog w = Some st
                 ∧ (∀ n, n ∈ expectedTables → lists_mysql mt n)
                 ∧ (∀ n, n ∈ expectedTables → lists_sqlite st n))
  ∧ (∀ w, (checkTables accepts w).1 = Ok true ∨ (checkTables accepts w).1 = Ok false)
  ∧ (∀ w w' mt st mt' st',
       mysql_catalog w = Some mt → sqlite_catalog w = Some st →
       mysql_catalog w' = Some mt' → sqlite_catalog w' = Some st' →
       mt ⊆ mt' → st ⊆ st' →
       (checkTables accepts w).1 = Ok true → (checkTables accepts w').1 = Ok true)
  ∧ (∀ w more more',
       mysql_catalog w = Some (mysql_listing expectedTables ++ more) →
       sqlite_catalog w = Some (more' ++ sqlite_listing expectedTables) →
       (checkTables accepts w).1 = Ok true)
  ∧ (∀ w st,
       mysql_catalog w
       = Some (mysql_listing (filter (λ n, n ≠ "users") expectedTables)) →
       sqlite_catalog w = Some st →
       (checkTables accepts w).1 = Ok false)
  ∧ (∀ w, mysql_catalog w = None ∨ sqlite_catalog w = None →
          (checkTables accepts w).1 = Ok false)
  ∧ expectedTables
    = ["acl"; "bans"; "channel_info"; "channel_links"; "channels"; "config";
       "group_members"; "groups"; "meta"; "servers"; "slog"; "user_info"; "users"].
Proof.
  assert (Hbool : ∀ w, (checkTables accepts w).1 ≠ Ok true →
                       (checkTables accepts w).1 = Ok false).
  { intros w Hne. by destruct (checkTables_total w) as ([|] & evs & Heq & _);
      rewrite Heq in *. }
  split_and!.
  - apply checkTables_listed.
  - intros w. destruct (checkTables_total w) as ([|] & evs & -> & _); auto.
  - intros w w' mt st mt' st' Hm Hs Hm' Hs' Hsub1 Hsub2 Ht.
    apply checkTables_listed in Ht as (? & ? & ? & ? & Hc1 & Hc2). simplify_eq.
    apply checkTables_listed. exists mt', st'. split_and!; try done.
    + intros n Hn. destruct (Hc1 n Hn) as (k & rest & Hin).
      exists k, rest. by apply Hsub1.
    + intros n Hn. destruct (Hc2 n Hn) as (before & after & Hin & Hnot).
      exists before, after. split; [by apply Hsub2|done].
  - intros w more more' Hm Hs. apply checkTables_listed.
    do 2 eexists. split_and!; [exact Hm|exact Hs| |]; intros n Hn.
    + exists "Tables_in_mumble", []. apply elem_of_app. left.
      by apply (list_elem_of_fmap_2 (λ n, [("Tables_in_mumble", SStr n)])).
    + exists [], []. split; [|apply not_elem_of_nil]. apply elem_of_app. right.
      by apply (list_elem_of_fmap_2 (λ n, [("name", SStr n)])).
  - intros w st Hm Hs. apply Hbool. intros Ht.
    apply checkTables_listed in Ht as (mt & ? & Hm' & _ & Hc & _).
    rewrite Hm in Hm'. injection Hm' as <-.
    destruct (Hc "users") as (k & rest & Hin).
    { apply (bool_decide_unpack _). by vm_compute. }
    clear -Hin. vm_compute in Hin.
    repeat (apply elem_of_cons in Hin as [Hin|Hin]; [discriminate|]).
    by apply elem_of_nil in Hin.
  - intros w Hnone. apply Hbool. intros Ht.
    apply checkTables_listed in Ht as (? & ? & ? & ? & _).
    destruct Hnone; congruence.
  - reflexivity.
Qed.

(** C5, as the code has it.  With both catalogs answered, the names
    reported missing for a side are exactly the expected names its catalog
    does not list.  When the source misses some, only the source's missing
    names are reported and the result is false; the destination's missing
    names are reported, with result false, when the source misses none. *)
Theorem checkTables_reports_first_missing w mt st :
  mysql_catalog w = Some mt →
  sqlite_catalog w = Some st →
  (∀ n, n ∈ missing (mysql_names mt) expectedTables
        ↔ n ∈ expectedTables ∧ Some (SStr n) ∉ mysql_names mt)
  ∧ (∀ n, n ∈ missing (sqlite_names st) expectedTables
          ↔ n ∈ expectedTables ∧ Some (SStr n) ∉ sqlite_names st)
  ∧ (missing (mysql_names mt) expectedTables ≠ [] →
     checkTables accepts w
     = (Ok false,
        w +ₑ [Query Mysql ShowTables []; Query Sqlite SelectSqliteMaster [];
              Log Error ("Mysql is missing the following tables: "
                           +:+ String.concat ", "
                                 (missing (mysql_names mt) expectedTables)) None]))
  ∧ (missing (mysql_names mt) expectedTables = [] →
     missing (sqlite_names st) expectedTables ≠ [] →
     checkTables accepts w
     = (Ok false,
        w +ₑ [Query Mysql ShowTables []; Query Sqlite SelectSqliteMaster [];
              Log Error ("Sqlite is missing the following tables: "
                           +:+ String.concat ", "
                                 (missing (sqlite_names st) expectedTables)) None])).
Proof.
  intros Hm Hs. split_and!.
  - intros n. apply elem_of_missing.
  - intros n. apply elem_of_missing.
  - intros Hne. rewrite (checkTables_answered _ mt st) by done.
    by destruct (missing (mysql_names mt) expectedTables).
  - intros He Hne. rewrite (checkTables_answered _ mt st) by done.
    rewrite He. by destruct (missing (sqlite_names st) expectedTables).
Qed.

(** ** Connection provisioner *)

Lemma connectMysql_spec config w :
  connectMysql config w
  = if mysql_up w
    then (Ok (Some Mysql),
          connected Mysql
            (w +ₑ connect_events Mysql
                    (obj_set (obj_set config "name" (SStr "mysql"))
                       "type" (SStr "mysql")) true))
    else (Ok None,
          w +ₑ connect_events Mysql
                 (obj_set (obj_set config "name" (SStr "mysql"))
                    "type" (SStr "mysql")) false).
Proof.
  unfold connectMysql, createConnection, try_catch, bind, info, error, emit, ret.
  simpl. destruct (mysql_up w); simpl; by rewrite !add_events_app.
Qed.

Lemma connectSqlite_spec config w :
  connectSqlite config w
  = if sqlite_up w
    then (Ok (Some Sqlite),
          connected Sqlite
            (w +ₑ connect_events Sqlite
                    ([("name", SStr "sqlite"); ("type", SStr "sqlite")]
                       ++ match get_prop config "filename" with
                          | Some f => [("database", f)]
                          | None => []
                          end) true))
    else (Ok None,
          w +ₑ connect_events Sqlite
                 ([("name", SStr "sqlite"); ("type", SStr "sqlite")]
                    ++ match get_prop config "filename" with
                       | Some f => [("database", f)]
                       | None => []
                       end) false).
Proof.
  unfold connectSqlite, createConnection, try_catch, bind, info, error, emit, ret.
  simpl. destruct (sqlite_up w); simpl; by rewrite !add_events_app.
Qed.

(** ** Orchestrator *)

Lemma execute_provisions config w :
  execute accepts sched config w
  = if mysql_up w && sqlite_up w
    then (validating accepts ;; steps_then accepts sched plan closing)
           (provisioned config w)
    else (Ok (),
          provisioned config w
            +ₑ [Log Error "One database couldn't be connected. Terminating." None]).
Proof.
  unfold execute. unfold bind at 1. rewrite connectMysql_spec.
  unfold provisioned, provisioning_events, mysql_options, sqlite_options.
  destruct (mysql_up w) eqn:Hm; unfold bind at 1; rewrite connectSqlite_spec;
    cbn [sqlite_up connected add_events set_opened set_trace];
    destruct (sqlite_up w) eqn:Hs; cbn [is_absent orb andb];
    unfold error, emit; rewrite ?add_events_app; try reflexivity.
  all: unfold connected, add_events, set_opened, set_trace;
    cbn [mysql_up sqlite_up mysql_catalog sqlite_catalog mysql_db sqlite_db
         opened trace]; by rewrite <- ?app_assoc.
Qed.

Lemma step_spec label m w :
  step label m w
  = (Ok (), (m (w +ₑ [start label])).2 +ₑ [fin (m (w +ₑ [start label])).1]).
Proof.
  unfold step, try_catch, bind, info, error, emit, start.
  by destruct (m _) as [[[]|e] w1].
Qed.

Lemma issue_events_table s rows :
  Forall (table_event (table s)) (issue_events s rows).
Proof.
  unfold issue_events. induction rows as [|row rows IH]; [constructor|].
  rewrite bind_cons. apply Forall_app. split; [|done].
  destruct (entity s) as [[??]|]; by repeat constructor.
Qed.

(** A migrator begins with its read, does nothing but statements on its
    own table and Migrating lines, and leaves the connections, the source
    and the other destination tables as they were. *)
Lemma migrate_frame s w :
  ∃ body,
    trace (migrate accepts sched s w).2 = trace w ++ body
    ∧ invocation_of (table s) (body, (migrate accepts sched s w).1)
    ∧ opened (migrate accepts sched s w).2 = opened w
    ∧ mysql_db (migrate accepts sched s w).2 = mysql_db w
    ∧ ∀ t, t ≠ table s →
           sqlite_db (migrate accepts sched s w).2 !! t = sqlite_db w !! t.
Proof.
  unfold invocation_of.
  destruct (mysql_db w !! table s) as [rows|] eqn:Hr.
  2:{ rewrite migrate_read_fails by done. eexists. split; [done|].
      split_and!; try done. repeat constructor. }
  destruct (sqlite_db w !! table s) as [old|] eqn:Hd.
  2:{ rewrite (migrate_clear_fails _ _ rows) by done. eexists. split; [done|].
      split_and!; try done. repeat constructor. }
  destruct (migrate_writes s w rows old Hr Hd) as (rs & -> & _).
  eexists. split; [done|]. split_and!; try done.
  - repeat (apply Forall_cons_2; [done|]). apply issue_events_table.
  - intros t Hne. simpl. by rewrite lookup_insert_ne.
Qed.

Lemma steps_then_runs steps k w :
  ∃ bs w',
    runs accepts sched steps bs w w'
    ∧ steps_then accepts sched steps k w = k w'
    ∧ opened w' = opened w
    ∧ trace w' = trace w ++ concat (zip_with block steps.*1 bs)
    ∧ Forall2 (λ ls b, invocation_of (table ls.2) b) steps bs.
Proof.
  revert w. induction steps as [|[label s] steps IH]; intros w.
  - exists [], w. simpl. split_and!; try done. by rewrite app_nil_r.
  - cbn [steps_then foldr fst snd]. unfold bind at 1. rewrite step_spec.
    fold (steps_then accepts sched steps k).
    destruct (migrate_frame s (w +ₑ [start label]))
      as (body & Htr & Hinv & Hop & _).
    destruct (migrate accepts sched s (w +ₑ [start label])) as [r w1] eqn:Hmig.
    cbn [fst snd] in *.
    destruct (IH (w1 +ₑ [fin r])) as (bs & w' & Hruns & Hk & Hop' & Htr' & Hall).
    exists ((body, r) :: bs), w'. split_and!.
    + cbn [runs]. exists w1. cbn [fst snd]. split_and!; try done.
      rewrite Htr. simpl. by rewrite <- app_assoc.
    + done.
    + rewrite Hop'. change (opened (w1 +ₑ [fin r])) with (opened w1).
      by rewrite Hop.
    + rewrite Htr'. cbn [fmap list_fmap zip_with concat block fst snd trace add_events set_trace].
      rewrite Htr. simpl. by rewrite <- !app_assoc.
    + by constructor.
Qed.

Lemma closing_spec w :
  closing w
  = (Ok (), disconnected Mysql (disconnected Sqlite w) +ₑ closing_events).
Proof.
  unfold closing, close, bind, info, emit, closing_events.
  unfold disconnected, add_events, set_opened, set_trace; simpl.
  by rewrite <- !app_assoc.
Qed.

Lemma validating_spec w :
  ∃ ok evs,
    checkTables accepts w = (Ok ok, w +ₑ evs)
    ∧ validating accepts w = (Ok (), w +ₑ (evs ++ verdict ok))
    ∧ Forall outside_steps (evs ++ verdict ok).
Proof.
  destruct (checkTables_total w) as (ok & evs & Hc & Hall & _).
  exists ok, evs. split; [done|]. unfold validating, bind. rewrite Hc.
  split.
  - destruct ok; simpl.
    + unfold ret. by rewrite app_nil_r.
    + unfold error, emit. by rewrite add_events_app.
  - apply Forall_app. split; [done|].
    destruct ok; simpl; [constructor|].
    apply Forall_cons_2; [|constructor]. split; [intros []|intros ? []].
Qed.

(** A run in which both connections come up: validation, then the
    thirteen steps in the order of [plan], then the closing phase. *)
Lemma execute_connected config w :
  mysql_up w = true → sqlite_up w = true →
  ∃ ok evs bs w2,
    checkTables accepts (provisioned config w) = (Ok ok, provisioned config w +ₑ evs)
    ∧ Forall outside_steps (evs ++ verdict ok)
    ∧ runs accepts sched plan bs (provisioned config w +ₑ (evs ++ verdict ok)) w2
    ∧ Forall2 (λ ls b, invocation_of (table ls.2) b) plan bs
    ∧ opened w2 = (opened w ++ [Mysql]) ++ [Sqlite]
    ∧ trace w2 = trace w ++ provisioning_events config w ++ evs ++ verdict ok
                   ++ concat (zip_with block plan.*1 bs)
    ∧ execute accepts sched config w
      = (Ok (), disconnected Mysql (disconnected Sqlite w2) +ₑ closing_events).
Proof.
  intros Hm Hs. rewrite execute_provisions, Hm, Hs. cbn [andb].
  destruct (validating_spec (provisioned config w)) as (ok & evs & Hc & Hv & Hout).
  unfold bind at 1. rewrite Hv.
  destruct (steps_then_runs plan closing (provisioned config w +ₑ (evs ++ verdict ok)))
    as (bs & w2 & Hruns & Hk & Hop & Htr & Hall).
  exists ok, evs, bs, w2. split_and!; try done.
  - rewrite Hop. unfold provisioned. by rewrite Hm, Hs.
  - rewrite Htr. unfold provisioned. rewrite Hm, Hs.
    cbn [trace add_events set_trace connected set_opened].
    by rewrite <- !app_assoc.
  - rewrite Hk. apply closing_spec.
Qed.

Lemma filter_close_nil evs :
  Forall (λ e, ¬ is_close e) evs → filter is_close evs = [].
Proof.
  induction 1 as [|e evs He _ IH]; [done|].
  by rewrite filter_cons_False.
Qed.

Lemma table_event_not_close t e : table_event t e → ¬ is_close e.
Proof. destruct e; simpl; intros H; by try intros []. Qed.

(** The blocks of the steps hold no close, and the read of every table
    of the steps. *)
Lemma blocks_no_close steps bs :
  Forall2 (λ ls b, invocation_of (table ls.2) b) steps bs →
  Forall (λ e, ¬ is_close e) (concat (zip_with block steps.*1 bs)).
Proof.
  induction 1 as [|[label s] [body r] steps bs [_ Hb] _ IH]; [constructor|].
  cbn [fmap list_fmap zip_with concat block fst snd] in *.
  apply Forall_app. split; [|done].
  apply Forall_cons_2; [by intros []|].
  apply Forall_app. split.
  - eapply Forall_impl; [exact Hb|]. intros e. apply table_event_not_close.
  - apply Forall_cons_2; [|constructor]. by destruct r; intros [].
Qed.

Lemma blocks_attempt_all steps bs ls :
  Forall2 (λ ls b, invocation_of (table ls.2) b) steps bs →
  ls ∈ steps →
  Query Mysql (SelectAll (table ls.2)) [] ∈ concat (zip_with block steps.*1 bs).
Proof.
  induction 1 as [|[label s] [body r] steps bs [Hh _] _ IH]; intros Hin.
  - by apply not_elem_of_nil in Hin.
  - cbn [fmap list_fmap zip_with concat block fst snd] in *.
    apply elem_of_app. apply elem_of_cons in Hin as [->|Hin].
    + left. right. apply elem_of_app. left.
      destruct body as [|e body]; [done|]. injection Hh as ->. left.
    + right. by apply IH.
Qed.

(** The steps leave the source alone, and the destination tables that
    are not theirs. *)
Lemma runs_frame steps bs w w' :
  runs accepts sched steps bs w w' →
  mysql_db w' = mysql_db w
  ∧ ∀ t, t ∉ (λ ls : string * TableSpec, table ls.2) <$> steps →
         sqlite_db w' !! t = sqlite_db w !! t.
Proof.
  revert bs w. induction steps as [|[label s] steps IH]; intros [|b bs] w; try done.
  - by intros ->.
  - cbn [runs]. intros (w1 & Hmig & _ & Hruns).
    destruct (migrate_frame s (w +ₑ [start label])) as (_ & _ & _ & _ & Hsrc & Hdst).
    rewrite Hmig in Hsrc, Hdst. cbn [snd] in *.
    destruct (IH _ _ Hruns) as [Hsrc' Hdst'].
    rewrite mysql_db_add_events in Hsrc, Hsrc'.
    setoid_rewrite sqlite_db_add_events in Hdst.
    setoid_rewrite sqlite_db_add_events in Hdst'.
    split.
    + by rewrite Hsrc'.
    + intros t Ht. rewrite fmap_cons, not_elem_of_cons in Ht. destruct Ht as [Hne Ht].
      rewrite (Hdst' t Ht). by apply Hdst.
Qed.






(** C2. In a run whose two connections came up, whatever each migrator's
    outcome: no exception leaves [execute]; starting from the databases as
    they were, every migrator is invoked in the world its predecessor left
    and its outcome, Done or the error, is logged at its own step ([runs]);
    the read of every table is attempted; and the run ends with the closing
    phase, in which each connection is closed once, the destination before
    the source, no close occurring earlier. *)
Theorem execute_isolates_failures config w :
  mysql_up w = true → sqlite_up w = true →
  ∃ pre bs w1 w2,
    trace w1 = trace w ++ pre
    ∧ mysql_db w1 = mysql_db w
    ∧ sqlite_db w1 = sqlite_db w
    ∧ runs accepts sched plan bs w1 w2
    ∧ length bs = 13
    ∧ trace w2 = trace w1 ++ concat (zip_with block plan.*1 bs)
    ∧ (∀ s, s ∈ all_specs →
            Query Mysql (SelectAll (table s)) []
              ∈ concat (zip_with block plan.*1 bs))
    ∧ execute accepts sched config w
      = (Ok (), disconnected Mysql (disconnected Sqlite w2) +ₑ closing_events)
    ∧ filter is_close (pre ++ concat (zip_with block plan.*1 bs) ++ closing_events)
      = [Close Sqlite; Close Mysql]
    ∧ (opened w = [] → opened (execute accepts sched config w).2 = []).
Proof.
  intros Hm Hs.
  destruct (execute_connected config w Hm Hs)
    as (ok & evs & bs & w2 & Hc & Hout & Hruns & Hall & Hop & Htr & Hex).
  exists (provisioning_events config w ++ evs ++ verdict ok), bs,
    (provisioned config w +ₑ (evs ++ verdict ok)), w2.
  split_and!.
  - unfold provisioned. rewrite Hm, Hs.
    cbn [trace add_events set_trace connected set_opened].
    by rewrite <- !app_assoc.
  - unfold provisioned. by rewrite Hm, Hs.
  - unfold provisioned. by rewrite Hm, Hs.
  - done.
  - by rewrite <- (Forall2_length _ _ _ Hall).
  - rewrite Htr. unfold provisioned. rewrite Hm, Hs.
    cbn [trace add_events set_trace connected set_opened].
    by rewrite <- !app_assoc.
  - intros s (ls & -> & Hin)%list_elem_of_fmap.
    by apply blocks_attempt_all.
  - done.
  - assert (Hpre : Forall (λ e, ¬ is_close e)
                       (provisioning_events config w ++ evs ++ verdict ok)).
    { apply Forall_app. split.
      - unfold provisioning_events, connect_events. rewrite Hm, Hs.
        repeat (apply Forall_cons_2; [by intros []|]). constructor.
      - eapply Forall_impl; [exact Hout|]. by intros e [? _]. }
    rewrite filter_app, (filter_close_nil _ Hpre), filter_app.
    by rewrite (filter_close_nil (concat _)) by by apply blocks_no_close.
  - intros Hnil. rewrite Hex. cbn [snd].
    unfold disconnected, add_events, set_opened, set_trace. cbn [opened].
    rewrite Hop, Hnil. done.
Qed.




(** C6. A connection that fails to open is reported and comes back
    absent, never as an exception.  When either fails, [execute] has
    attempted both, the trace shows for each the attempt and, for a
    failed one, the report; it then logs that it terminates and returns:
    no statement is sent to either database and no table changes. *)
Theorem execute_stops_when_not_connected config w :
  mysql_up w = false ∨ sqlite_up w = false →
  (∀ cfg w0, ∃ c, (connectMysql cfg w0).1 = Ok c
                  ∧ (mysql_up w0 = false →
                     c = None
                     ∧ Log Error "Unable to connect." (Some (ConnectError Mysql))
                         ∈ trace (connectMysql cfg w0).2))
  ∧ (∀ cfg w0, ∃ c, (connectSqlite cfg w0).1 = Ok c
                    ∧ (sqlite_up w0 = false →
                       c = None
                       ∧ Log Error "Unable to connect." (Some (ConnectError Sqlite))
                           ∈ trace (connectSqlite cfg w0).2))
  ∧ (execute accepts sched config w).1 = Ok ()
  ∧ trace (execute accepts sched config w).2
    = trace w
        ++ connect_events Mysql (mysql_options config) (mysql_up w)
        ++ connect_events Sqlite (sqlite_options config) (sqlite_up w)
        ++ [Log Error "One database couldn't be connected. Terminating." None]
  ∧ Forall (λ e, ¬ is_query e)
      (connect_events Mysql (mysql_options config) (mysql_up w)
         ++ connect_events Sqlite (sqlite_options config) (sqlite_up w)
         ++ [Log Error "One database couldn't be connected. Terminating." None])
  ∧ sqlite_db (execute accepts sched config w).2 = sqlite_db w
  ∧ mysql_db (execute accepts sched config w).2 = mysql_db w.
Proof.
  intros Hdown. split_and!.
  - intros cfg w0. rewrite connectMysql_spec.
    destruct (mysql_up w0); eexists; (split; [done|]); [done|].
    intros _. split; [done|]. simpl. apply elem_of_app. right.
    right. right. left.
  - intros cfg w0. rewrite connectSqlite_spec.
    destruct (sqlite_up w0); eexists; (split; [done|]); [done|].
    intros _. split; [done|]. simpl. apply elem_of_app. right.
    right. right. left.
  - rewrite execute_provisions.
    by destruct Hdown as [-> | ->]; [|rewrite andb_false_r].
  - rewrite execute_provisions.
    assert (mysql_up w && sqlite_up w = false) as ->.
    { by destruct Hdown as [-> | ->]; [|rewrite andb_false_r]. }
    unfold provisioned, provisioning_events.
    destruct (mysql_up w), (sqlite_up w);
      cbn [snd trace add_events set_trace connected set_opened];
      by rewrite <- !app_assoc.
  - unfold connect_events.
    destruct (mysql_up w), (sqlite_up w); simpl;
      repeat (apply Forall_cons_2; [by intros []|]); constructor.
  - rewrite execute_provisions.
    assert (mysql_up w && sqlite_up w = false) as ->.
    { by destruct Hdown as [-> | ->]; [|rewrite andb_false_r]. }
    unfold provisioned. by destruct (mysql_up w), (sqlite_up w).
  - rewrite execute_provisions.
    assert (mysql_up w && sqlite_up w = false) as ->.
    { by destruct Hdown as [-> | ->]; [|rewrite andb_false_r]. }
    unfold provisioned. by destruct (mysql_up w), (sqlite_up w).
Qed.

(** C10. When exactly one of the two connections opens, [execute] returns
    right after logging that it terminates: the run sends no close, and
    the connection that did open is still open afterwards. *)
Theorem execute_leaves_connection_open config w :
  mysql_up w ≠ sqlite_up w →
  ∃ evs,
    execute accepts sched config w
    = (Ok (),
       connected (if mysql_up w then Mysql else Sqlite) w +ₑ evs)
    ∧ last evs
      = Some (Log Error "One database couldn't be connected. Terminating." None)
    ∧ Forall (λ e, ¬ is_close e) evs
    ∧ (if mysql_up w then Mysql else Sqlite)
        ∈ opened (execute accepts sched config w).2.
Proof.
  intros Hne. rewrite execute_provisions.
  exists (provisioning_events config w
            ++ [Log Error "One database couldn't be connected. Terminating." None]).
  unfold provisioned, provisioning_events, connect_events.
  destruct (mysql_up w), (sqlite_up w); try done; cbn [andb]; split_and!.
  all: try by rewrite add_events_app.
  all: try done.
  all: try (simpl; repeat (apply Forall_cons_2; [by intros []|]); constructor).
  all: simpl; apply elem_of_app; right; left.
Qed.

End Proofs.

(** The thirteen methods, in the order [execute] calls them. *)
Lemma all_specs_methods accepts sched :
  migrate accepts sched <$> all_specs
  = [migrateServers accepts sched; migrateChannels accepts sched;
     migrateUsers accepts sched; migrateGroups accepts sched;
     migrateAcl accepts sched; migrateBans accepts sched;
     migrateChannelInfo accepts sched; migrateChannelLinks accepts sched;
     migrateConfig accepts sched; migrateGroupMembers accepts sched;
     migrateMeta accepts sched; migrateSlog accepts sched;
     migrateUserInfos accepts sched]
  ∧ table <$> all_specs = migration_order.
Proof. split; reflexivity. Qed.

(** ** The properties on the example worlds *)

Example insert_text_acl :
  sql_text (InsertInto (table aclSpec) (columns aclSpec))
  = "insert into acl(server_id, channel_id, priority, user_id, group_name, apply_here, apply_sub, grantpriv, revokepriv) values(?, ?, ?, ?, ?, ?, ?, ?, ?)".
Proof. reflexivity. Qed.

Example stale_servers_replaced :
  (migrateServers unique_rows second_first stale_servers).1 = Ok ()
  ∧ sqlite_db (migrateServers unique_rows second_first stale_servers).2 !! "servers"
    = Some (servers [2; 3; 1]%Z).
Proof. by vm_compute. Qed.

Example repeated_server_fails :
  (migrateServers unique_rows second_first repeated_server).1
  = Throw (QueryError Sqlite (InsertInto "servers" ["server_id"]) [Some (SInt 1)])
  ∧ sqlite_db (migrateServers unique_rows second_first repeated_server).2 !! "servers"
    = Some (servers [2; 1; 3]%Z).
Proof. by vm_compute. Qed.



Example stale_servers_run :
  sqlite_db (execute unique_rows second_first example_config stale_servers).2
    !! "servers" = Some (servers [2; 3; 1]%Z)
  ∧ Log Info "Done." None
      ∈ trace (execute unique_rows second_first example_config stale_servers).2.
Proof.
  split; [by vm_compute|]. apply (bool_decide_unpack _). by vm_compute.
Qed.

(** Every one of the thirteen migrations fails; both connections are
    closed all the same, once each. *)
Example all_fail_still_closes :
  (execute unique_rows second_first example_config unreadable_channels).1 = Ok ()
  ∧ filter is_close
      (trace (execute unique_rows second_first example_config unreadable_channels).2)
    = [Close Sqlite; Close Mysql]
  ∧ length (filter is_step_error
              (trace (execute unique_rows second_first example_config
                        unreadable_channels).2)) = 13
  ∧ opened (execute unique_rows second_first example_config unreadable_channels).2
    = [].
Proof. split_and!; by vm_compute. Qed.

Lemma execute_isolates_failures_witness :
  mysql_up stale_servers = true
  ∧ sqlite_up stale_servers = true
  ∧ ∃ pre bs w1 w2,
      trace w1 = trace stale_servers ++ pre
      ∧ mysql_db w1 = mysql_db stale_servers
      ∧ sqlite_db w1 = sqlite_db stale_servers
      ∧ runs unique_rows second_first plan bs w1 w2
      ∧ length bs = 13
      ∧ trace w2 = trace w1 ++ concat (zip_with block plan.*1 bs)
      ∧ (∀ s, s ∈ all_specs →
              Query Mysql (SelectAll (table s)) []
                ∈ concat (zip_with block plan.*1 bs))
      ∧ execute unique_rows second_first example_config stale_servers
        = (Ok (), disconnected Mysql (disconnected Sqlite w2) +ₑ closing_events)
      ∧ filter is_close (pre ++ concat (zip_with block plan.*1 bs) ++ closing_events)
        = [Close Sqlite; Close Mysql]
      ∧ (opened stale_servers = [] →
         opened (execute unique_rows second_first example_config stale_servers).2 = []).
Proof.
  split; [reflexivity|]. split; [reflexivity|].
  exact (execute_isolates_failures unique_rows second_first example_config
           stale_servers eq_refl eq_refl).
Defined.



Lemma checkTables_reports_first_missing_witness :
  mysql_catalog both_incomplete
  = Some (mysql_listing (filter (λ n, n ≠ "users") expectedTables))
  ∧ sqlite_catalog both_incomplete
    = Some (sqlite_listing (filter (λ n, n ≠ "acl") expectedTables))
  ∧ (∀ n, n ∈ missing (mysql_names (mysql_listing (filter (λ n, n ≠ "users") expectedTables)))
                expectedTables
          ↔ n ∈ expectedTables
            ∧ Some (SStr n)
                ∉ mysql_names (mysql_listing (filter (λ n, n ≠ "users") expectedTables)))
  ∧ (∀ n, n ∈ missing (sqlite_names (sqlite_listing (filter (λ n, n ≠ "acl") expectedTables)))
                expectedTables
          ↔ n ∈ expectedTables
            ∧ Some (SStr n)
                ∉ sqlite_names (sqlite_listing (filter (λ n, n ≠ "acl") expectedTables)))
  ∧ (missing (mysql_names (mysql_listing (filter (λ n, n ≠ "users") expectedTables)))
       expectedTables ≠ [] →
     checkTables unique_rows both_incomplete
     = (Ok false,
        both_incomplete
          +ₑ [Query Mysql ShowTables []; Query Sqlite SelectSqliteMaster [];
              Log Error ("Mysql is missing the following tables: "
                           +:+ String.concat ", "
                                 (missing (mysql_names (mysql_listing
                                    (filter (λ n, n ≠ "users") expectedTables)))
                                    expectedTables)) None]))
  ∧ (missing (mysql_names (mysql_listing (filter (λ n, n ≠ "users") expectedTables)))
       expectedTables = [] →
     missing (sqlite_names (sqlite_listing (filter (λ n, n ≠ "acl") expectedTables)))
       expectedTables ≠ [] →
     checkTables unique_rows both_incomplete
     = (Ok false,
        both_incomplete
          +ₑ [Query Mysql ShowTables []; Query Sqlite SelectSqliteMaster [];
              Log Error ("Sqlite is missing the following tables: "
                           +:+ String.concat ", "
                                 (missing (sqlite_names (sqlite_listing
                                    (filter (λ n, n ≠ "acl") expectedTables)))
                                    expectedTables)) None])).
Proof.
  split; [reflexivity|]. split; [reflexivity|].
  exact (checkTables_reports_first_missing unique_rows both_incomplete _ _
           eq_refl eq_refl).
Defined.

(** With names missing on both sides, only the source's are reported. *)
Lemma checkTables_both_missing_counterexample :
  missing (mysql_names (mysql_listing (filter (λ n, n ≠ "users") expectedTables)))
    expectedTables = ["users"]
  ∧ missing (sqlite_names (sqlite_listing (filter (λ n, n ≠ "acl") expectedTables)))
      expectedTables = ["acl"]
  ∧ (checkTables unique_rows both_incomplete).1 = Ok false
  ∧ trace (checkTables unique_rows both_incomplete).2
    = [Query Mysql ShowTables []; Query Sqlite SelectSqliteMaster [];
       Log Error "Mysql is missing the following tables: users" None]
  ∧ Log Error "Sqlite is missing the following tables: acl" None
      ∉ trace (checkTables unique_rows both_incomplete).2.
Proof.
  split_and!; try by vm_compute.
  apply (bool_decide_unpack _). by vm_compute.
Qed.

Lemma execute_stops_when_not_connected_witness :
  (mysql_up mysql_down = false ∨ sqlite_up mysql_down = false)
  ∧ (execute unique_rows second_first example_config mysql_down).1 = Ok ()
  ∧ trace (execute unique_rows second_first example_config mysql_down).2
    = trace mysql_down
        ++ connect_events Mysql (mysql_options example_config) (mysql_up mysql_down)
        ++ connect_events Sqlite (sqlite_options example_config) (sqlite_up mysql_down)
        ++ [Log Error "One database couldn't be connected. Terminating." None]
  ∧ sqlite_db (execute unique_rows second_first example_config mysql_down).2
    = sqlite_db mysql_down.
Proof.
  assert (H : mysql_up mysql_down = false ∨ sqlite_up mysql_down = false)
    by (left; reflexivity).
  split; [exact H|].
  pose proof (execute_stops_when_not_connected unique_rows second_first
                example_config mysql_down H) as (_ & _ & H1 & H2 & _ & H3 & _).
  split_and!; assumption.
Defined.

Lemma migrate_insert_failure_witness :
  mysql_db repeated_server !! table serversSpec = Some (servers [1; 2; 1; 3]%Z)
  ∧ sqlite_db repeated_server !! table serversSpec = Some (servers [7]%Z)
  ∧ ∃ rs w',
      migrate unique_rows second_first serversSpec repeated_server = (result_of rs, w')
      ∧ rs.*1 ≡ₚ issued serversSpec (servers [1; 2; 1; 3]%Z)
      ∧ sqlite_db w' !! table serversSpec = Some (kept (columns serversSpec) rs)
      ∧ ((∃ r, r ∈ rs ∧ ¬ is_ok r) ↔ ∃ e, result_of rs = Throw e).
Proof.
  split; [reflexivity|]. split; [reflexivity|].
  destruct (migrate_insert_failure unique_rows second_first serversSpec
              repeated_server (servers [1; 2; 1; 3]%Z) (servers [7]%Z)
              eq_refl eq_refl)
    as (rs & w' & H1 & H2 & _ & _ & _ & H3 & H4 & _).
  exists rs, w'. split_and!; assumption.
Defined.

Lemma migrate_clears_after_read_witness :
  sqlite_db empty_channels !! table channelsSpec
  = Some [channel 0 "Root"; channel 1 "Lobby"]
  ∧ Query Sqlite (DeleteFrom "channels") []
      ∈ trace (migrate unique_rows second_first channelsSpec empty_channels).2
  ∧ sqlite_db (migrate unique_rows second_first channelsSpec empty_channels).2
      !! "channels" = Some []
  ∧ (migrate unique_rows second_first channelsSpec empty_channels).1 = Ok ().
Proof.
  split; [reflexivity|].
  pose proof (migrate_clears_after_read unique_rows second_first channelsSpec
                empty_channels [channel 0 "Root"; channel 1 "Lobby"] eq_refl) as H.
  change (mysql_db empty_channels !! table channelsSpec) with (Some (@nil Row)) in H.
  destruct H as (H1 & dst & H2 & _ & H3).
  destruct (H3 eq_refl) as [-> H4].
  split_and!; assumption.
Defined.

(** A failed read leaves the clear undone and the stale rows in place. *)
Lemma migrate_unreadable_keeps_stale_counterexample :
  mysql_db unreadable_channels !! "channels" = None
  ∧ sqlite_db unreadable_channels !! "channels"
    = Some [channel 0 "Root"; channel 1 "Lobby"]
  ∧ trace (migrateChannels unique_rows second_first unreadable_channels).2
    = [Query Mysql (SelectAll "channels") []]
  ∧ (Query Sqlite (DeleteFrom "channels") []
       ∉ trace (migrateChannels unique_rows second_first unreadable_channels).2)
  ∧ sqlite_db (migrateChannels unique_rows second_first unreadable_channels).2
      !! "channels" = Some [channel 0 "Root"; channel 1 "Lobby"].
Proof.
  split_and!; try by vm_compute.
  apply (bool_decide_unpack _). by vm_compute.
Qed.

Lemma execute_leaves_connection_open_witness :
  mysql_up mysql_down ≠ sqlite_up mysql_down
  ∧ ∃ evs,
      execute unique_rows second_first example_config mysql_down
      = (Ok (), connected (if mysql_up mysql_down then Mysql else Sqlite) mysql_down +ₑ evs)
      ∧ last evs
        = Some (Log Error "One database couldn't be connected. Terminating." None)
      ∧ Forall (λ e, ¬ is_close e) evs
      ∧ (if mysql_up mysql_down then Mysql else Sqlite)
          ∈ opened (execute unique_rows second_first example_config mysql_down).2.
Proof.
  assert (H : mysql_up mysql_down ≠ sqlite_up mysql_down) by discriminate.
  split; [exact H|].
  exact (execute_leaves_connection_open unique_rows second_first example_config
           mysql_down H).
Defined.

Example mysql_down_trace :
  execute unique_rows second_first example_config mysql_down
  = (Ok (),
     mkWorld false true None None ∅ {[ "servers" := servers [4; 5]%Z ]} [Sqlite]
       [Log Info "Connecting to mysql..." None;
        Connect Mysql
          [("host", SStr "localhost"); ("password", SStr "secret");
           ("username", SStr "murmur"); ("database", SStr "mumble");
           ("name", SStr "mysql"); ("type", SStr "mysql")];
        Log Error "Unable to connect." (Some (ConnectError Mysql));
        Log Info "Connecting to sqlite..." None;
        Connect Sqlite
          [("name", SStr "sqlite"); ("type", SStr "sqlite");
           ("database", SStr "murmur.sqlite")];
        Log Error "One database couldn't be connected. Terminating." None]).
Proof. by vm_compute. Qed.

(** * Further properties of the engine *)

Section More.

Variable accepts : string → list Row → Row → bool.
Variable sched : list Pending → nat.

(** ** What a migrator leaves alone *)

Lemma migrate_cases s w :
  (mysql_db w !! table s = None
   ∧ migrate accepts sched s w
     = (Throw (QueryError Mysql (SelectAll (table s)) []),
        w +ₑ [Query Mysql (SelectAll (table s)) []]))
  ∨ (∃ rows, mysql_db w !! table s = Some rows
             ∧ sqlite_db w !! table s = None
             ∧ migrate accepts sched s w
               = (Throw (QueryError Sqlite (DeleteFrom (table s)) []),
                  w +ₑ [Query Mysql (SelectAll (table s)) [];
                        Query Sqlite (DeleteFrom (table s)) []]))
  ∨ (∃ rows old rs,
       mysql_db w !! table s = Some rows
       ∧ sqlite_db w !! table s = Some old
       ∧ migrate accepts sched s w
         = (result_of rs,
            with_table (table s) (kept (columns s) rs)
              (w +ₑ (Query Mysql (SelectAll (table s)) []
                       :: Query Sqlite (DeleteFrom (table s)) []
                       :: issue_events s rows)))
       ∧ rs.*1 ≡ₚ issued s rows
       ∧ Settled accepts (table s) (columns s) [] rs).
Proof.
  destruct (mysql_db w !! table s) as [rows|] eqn:Hr.
  2:{ left. split; [done|]. by apply migrate_read_fails. }
  destruct (sqlite_db w !! table s) as [old|] eqn:Hd.
  2:{ right. left. exists rows. split_and!; try done. by eapply migrate_clear_fails. }
  right. right.
  destruct (migrate_writes accepts sched s w rows old Hr Hd) as (rs & H1 & H2 & H3).
  by exists rows, old, rs.
Qed.

Lemma migrate_env s w :
  mysql_up (migrate accepts sched s w).2 = mysql_up w
  ∧ sqlite_up (migrate accepts sched s w).2 = sqlite_up w
  ∧ mysql_catalog (migrate accepts sched s w).2 = mysql_catalog w
  ∧ sqlite_catalog (migrate accepts sched s w).2 = sqlite_catalog w.
Proof.
  destruct (migrate_cases s w)
    as [[_ ->]|[(rows & _ & _ & ->)|(rows & old & rs & _ & _ & -> & _)]]; done.
Qed.

Lemma migrate_dom s w :
  dom (sqlite_db (migrate accepts sched s w).2) = dom (sqlite_db w).
Proof.
  destruct (migrate_cases s w)
    as [[_ ->]|[(rows & _ & _ & ->)|(rows & old & rs & _ & Hd & -> & _)]];
    [done|done|].
  cbn [snd]. unfold with_table, set_sqlite_db, add_events, set_trace. cbn [sqlite_db].
  by apply dom_insert_lookup_L.
Qed.

(** X13. A migrator, whether it returns or throws, changes no table of
    the destination but its own, and nothing of the source, of the
    catalogs or of the open connections. *)
Theorem migrate_touches_own_table_only s w :
  (∀ t, t ≠ table s →
        sqlite_db (migrate accepts sched s w).2 !! t = sqlite_db w !! t)
  ∧ mysql_db (migrate accepts sched s w).2 = mysql_db w
  ∧ mysql_catalog (migrate accepts sched s w).2 = mysql_catalog w
  ∧ sqlite_catalog (migrate accepts sched s w).2 = sqlite_catalog w
  ∧ opened (migrate accepts sched s w).2 = opened w
  ∧ dom (sqlite_db (migrate accepts sched s w).2) = dom (sqlite_db w).
Proof.
  destruct (migrate_frame accepts sched s w) as (_ & _ & _ & Hop & Hsrc & Hdst).
  destruct (migrate_env s w) as (_ & _ & Hc1 & Hc2).
  split_and!; try done. apply migrate_dom.
Qed.

(** X12. When the destination lacks the table, the method reads the
    source, fails at the clear with the clear's error, sends no insert and
    leaves the whole destination as it was. *)
Theorem migrate_without_destination_table s w rows :
  mysql_db w !! table s = Some rows →
  sqlite_db w !! table s = None →
  (migrate accepts sched s w).1
  = Throw (QueryError Sqlite (DeleteFrom (table s)) [])
  ∧ trace (migrate accepts sched s w).2
    = trace w ++ [Query Mysql (SelectAll (table s)) [];
                  Query Sqlite (DeleteFrom (table s)) []]
  ∧ sqlite_db (migrate accepts sched s w).2 = sqlite_db w.
Proof.
  intros Hr Hd. by rewrite (migrate_clear_fails accepts sched s w rows Hr Hd).
Qed.

(** ** Invariants of a run *)

Lemma checkTables_fixed w :
  ∃ b evs, checkTables accepts w = (Ok b, w +ₑ evs)
           ∧ Forall (λ e, fixed_event e ∧ ¬ is_connect e) evs.
Proof.
  destruct (mysql_catalog w) as [mt|] eqn:Hm.
  2:{ rewrite checkTables_mysql_fails by done. do 2 eexists. split; [done|].
      repeat (apply Forall_cons_2; [by split; [|intros []]|]). constructor. }
  destruct (sqlite_catalog w) as [st|] eqn:Hs.
  2:{ rewrite (checkTables_sqlite_fails _ _ mt) by done. do 2 eexists.
      split; [done|].
      repeat (apply Forall_cons_2; [by split; [|intros []]|]). constructor. }
  rewrite (checkTables_answered _ _ mt st) by done.
  destruct (missing (mysql_names mt) expectedTables);
    [destruct (missing (sqlite_names st) expectedTables)|];
    do 2 eexists; (split; [done|]);
    repeat (apply Forall_cons_2; [by split; [|intros []]|]); constructor.
Qed.

Lemma validating_fixed w :
  ∃ evs, validating accepts w = (Ok (), w +ₑ evs)
         ∧ Forall (λ e, fixed_event e ∧ ¬ is_connect e) evs.
Proof.
  destruct (checkTables_fixed w) as (b & evs & Hc & Hall).
  exists (evs ++ verdict b). unfold validating, bind. rewrite Hc. split.
  - destruct b; simpl.
    + unfold ret. by rewrite app_nil_r.
    + unfold error, emit. by rewrite add_events_app.
  - apply Forall_app. split; [done|]. destruct b; [constructor|].
    apply Forall_cons_2; [by split; [|intros []]|constructor].
Qed.

Lemma provisioning_fixed config w :
  Forall fixed_event (provisioning_events config w).
Proof.
  unfold provisioning_events, connect_events.
  destruct (mysql_up w), (sqlite_up w); by repeat constructor.
Qed.

Section TailInvariant.

(** A relation between the world before and the world after that every
    part of a run after the connecting respects. *)
Variable R : World → World → Prop.
Hypothesis R_refl : ∀ w, R w w.
Hypothesis R_trans : ∀ a b c, R a b → R b c → R a c.
Hypothesis R_event : ∀ w e, fixed_event e → ¬ is_connect e → R w (w +ₑ [e]).
Hypothesis R_disconnected : ∀ w c, R w (disconnected c w).
Hypothesis R_migrate :
  ∀ s w, s ∈ all_specs → R w (migrate accepts sched s w).2.

Lemma events_inv w evs :
  Forall (λ e, fixed_event e ∧ ¬ is_connect e) evs → R w (w +ₑ evs).
Proof using R_refl R_trans R_event.
  intros Hall. revert w. induction Hall as [|e evs [He He'] _ IH]; intros w.
  - by rewrite add_events_nil.
  - change (e :: evs) with ([e] ++ evs). rewrite <- add_events_app.
    eapply R_trans; [by apply R_event|apply IH].
Qed.

Lemma runs_inv steps bs w w' :
  Forall (λ ls, ls.2 ∈ all_specs) steps →
  runs accepts sched steps bs w w' → R w w'.
Proof using R_refl R_trans R_event R_migrate.
  revert bs w. induction steps as [|[label s] steps IH]; intros [|b bs] w Hspecs;
    try done.
  - by intros ->.
  - apply Forall_cons in Hspecs as [Hs Hspecs]. cbn [runs].
    intros (w1 & Hmig & _ & Hruns).
    eapply R_trans; [apply (R_event w (start label)); [done|intros []]|].
    eapply R_trans.
    { pose proof (R_migrate s (w +ₑ [start label]) Hs) as H.
      rewrite Hmig in H. exact H. }
    eapply R_trans; [|by apply (IH bs)].
    apply R_event; destruct (b.2); simpl; (done || intros []).
Qed.

(** The relation holds across validation, the thirteen steps and the
    closing phase. *)
Lemma migrating_inv w :
  R w ((validating accepts ;; steps_then accepts sched plan closing) w).2.
Proof using All.
  unfold bind at 1.
  destruct (validating_fixed w) as (evs & -> & Hall).
  destruct (steps_then_runs accepts sched plan closing (w +ₑ evs))
    as (bs & w2 & Hruns & -> & _).
  rewrite closing_spec. cbn [snd].
  eapply R_trans; [by apply events_inv|].
  eapply R_trans.
  { eapply runs_inv; [|exact Hruns].
    apply Forall_forall. intros ls Hin.
    by apply (list_elem_of_fmap_2 snd) in Hin. }
  eapply R_trans; [apply (R_disconnected _ Sqlite)|].
  eapply R_trans; [apply (R_disconnected _ Mysql)|].
  apply events_inv.
  repeat (apply Forall_cons_2; [by split; [|intros []]|]). constructor.
Qed.

End TailInvariant.

Section Invariant.

(** A relation between the world before and the world after that every
    part of a run respects. *)
Variable R : World → World → Prop.
Hypothesis R_refl : ∀ w, R w w.
Hypothesis R_trans : ∀ a b c, R a b → R b c → R a c.
Hypothesis R_event : ∀ w e, fixed_event e → R w (w +ₑ [e]).
Hypothesis R_connected : ∀ w c, R w (connected c w).
Hypothesis R_disconnected : ∀ w c, R w (disconnected c w).
Hypothesis R_migrate :
  ∀ s w, s ∈ all_specs → R w (migrate accepts sched s w).2.

Lemma provisioned_inv config w : R w (provisioned config w).
Proof using R_refl R_trans R_event R_connected.
  unfold provisioned.
  assert (Hev : ∀ w0 evs, Forall fixed_event evs → R w0 (w0 +ₑ evs)).
  { intros w0 evs Hall. revert w0.
    induction Hall as [|e evs He _ IH]; intros w0.
    - by rewrite add_events_nil.
    - change (e :: evs) with ([e] ++ evs). rewrite <- add_events_app.
      eapply R_trans; [by apply R_event|apply IH]. }
  eapply R_trans; [|apply Hev, provisioning_fixed].
  destruct (mysql_up w), (sqlite_up w); eauto.
Qed.

(** The relation holds between the world before and after a whole run. *)
Lemma execute_inv config w : R w (execute accepts sched config w).2.
Proof using All.
  rewrite execute_provisions.
  destruct (mysql_up w && sqlite_up w).
  - eapply R_trans; [apply provisioned_inv|].
    apply migrating_inv; auto.
  - cbn [snd]. eapply R_trans; [apply provisioned_inv|].
    by apply R_event.
Qed.

End Invariant.

Lemma all_specs_table s : s ∈ all_specs → table s ∈ migration_order.
Proof. intros Hs. by apply (list_elem_of_fmap_2 table) in Hs. Qed.

(** X3. A run creates and drops no table: the destination has the same
    tables after [execute] as before, and a table that is not one of the
    thirteen keeps its rows. *)
Theorem execute_keeps_destination_schema config w :
  dom (sqlite_db (execute accepts sched config w).2) = dom (sqlite_db w)
  ∧ ∀ t, t ∉ migration_order →
         sqlite_db (execute accepts sched config w).2 !! t = sqlite_db w !! t.
Proof.
  apply (execute_inv
           (λ w w', dom (sqlite_db w') = dom (sqlite_db w)
                    ∧ ∀ t, t ∉ migration_order →
                           sqlite_db w' !! t = sqlite_db w !! t)); try done.
  - intros a b c [H1 H2] [H3 H4]. split; [by rewrite H3|].
    intros t Ht. by rewrite H4, H2.
  - intros s w0 Hs. split; [apply migrate_dom|].
    intros t Ht.
    destruct (migrate_frame accepts sched s w0) as (_ & _ & _ & _ & _ & H).
    apply H. intros ->. by apply Ht, all_specs_table.
Qed.

Lemma fixed_event_sent e : fixed_event e → sent_by_run e.
Proof.
  destruct e as [| | |c q params|]; try done.
  by destruct c, q, params.
Qed.

Lemma migrate_events_sent s w :
  s ∈ all_specs →
  ∃ evs, trace (migrate accepts sched s w).2 = trace w ++ evs
         ∧ Forall sent_by_run evs.
Proof.
  intros Hs. pose proof (all_specs_table s Hs) as Ht.
  destruct (migrate_cases s w)
    as [[_ ->]|[(rows & _ & _ & ->)|(rows & old & rs & _ & _ & -> & _)]];
    eexists; (split; [done|]).
  - apply Forall_cons_2; [exact Ht|constructor].
  - repeat (apply Forall_cons_2; [exact Ht|]). constructor.
  - repeat (apply Forall_cons_2; [exact Ht|]).
    unfold issue_events. induction rows as [|row rows IH]; [constructor|].
    rewrite bind_cons. apply Forall_app. split; [|done].
    apply Forall_app. split; [by destruct (entity s) as [[??]|]; repeat constructor|].
    apply Forall_cons_2; [|constructor]. split; [by exists s|].
    unfold params_of. by rewrite length_fmap.
Qed.

(** X2. Every statement a run sends is one of the program's: the source
    gets only the catalog listing and whole-table reads, the destination
    only the catalog listing, clears and inserts; reads, clears and
    inserts are on the thirteen tables only, and an insert names the
    column list of its method with one parameter per column. *)
Theorem execute_sends_only_its_statements config w :
  ∃ evs, trace (execute accepts sched config w).2 = trace w ++ evs
         ∧ Forall sent_by_run evs.
Proof.
  apply (execute_inv
           (λ w w', ∃ evs, trace w' = trace w ++ evs ∧ Forall sent_by_run evs)).
  - intros w0. exists []. split; [by rewrite app_nil_r|constructor].
  - intros a b c (e1 & H1 & F1) (e2 & H2 & F2). exists (e1 ++ e2). split.
    + by rewrite H2, H1, <- app_assoc.
    + by apply Forall_app.
  - intros w0 e He. exists [e]. split; [done|].
    apply Forall_cons_2; [by apply fixed_event_sent|constructor].
  - intros w0 c. exists []. split; [by rewrite app_nil_r|constructor].
  - intros w0 c. exists []. split; [by rewrite app_nil_r|constructor].
  - intros s w0 Hs. by apply migrate_events_sent.
Qed.

(** ** What the result of a step depends on *)

Lemma insert_no_table t cols params w :
  sqlite_db w !! t = None →
  sqlite_exec accepts (InsertInto t cols) params w
  = (Throw (QueryError Sqlite (InsertInto t cols) params), w).
Proof. intros Hl. unfold sqlite_exec. by rewrite Hl. Qed.

(** Settling the same inserts from two worlds whose table holds the same
    rows gives the same outcomes and the same table. *)
Lemma settle_agree t cols fuel pending w w' :
  Forall (λ p, p.1 = InsertInto t cols) pending →
  sqlite_db w' !! t = sqlite_db w !! t →
  (settle accepts sched fuel pending w').1 = (settle accepts sched fuel pending w).1
  ∧ sqlite_db (settle accepts sched fuel pending w').2 !! t
    = sqlite_db (settle accepts sched fuel pending w).2 !! t.
Proof.
  revert pending w w'. induction fuel as [|fuel IH]; intros pending w w' Hall Heq;
    [done|].
  cbn [settle].
  destruct (pending !! (sched pending `mod` length pending)) as [[q params]|] eqn:Hp;
    [|done].
  assert (q = InsertInto t cols) as ->.
  { by eapply Forall_lookup_1 in Hall; [|exact Hp]. }
  pose proof (Forall_delete _ _ (sched pending `mod` length pending) Hall) as Hall'.
  cbn [fst snd].
  destruct (sqlite_db w !! t) as [content|] eqn:Hl.
  - destruct (accepts t content (zip cols (bind_param <$> params))) eqn:Ha.
    + rewrite (insert_accepted accepts _ _ _ _ w Hl Ha).
      rewrite (insert_accepted accepts _ _ _ _ w' Heq Ha).
      destruct (IH _ (with_table t (content ++ [zip cols (bind_param <$> params)]) w)
                  (with_table t (content ++ [zip cols (bind_param <$> params)]) w')
                  Hall') as [H1 H2].
      { by rewrite !lookup_with_table. }
      destruct (settle accepts sched fuel _ (with_table _ _ w)) as [rs w2].
      destruct (settle accepts sched fuel _ (with_table _ _ w')) as [rs' w2'].
      simpl in *. by subst.
    + rewrite (insert_rejected accepts _ _ _ _ w Hl Ha).
      rewrite (insert_rejected accepts _ _ _ _ w' Heq Ha).
      destruct (IH _ w w' Hall') as [H1 H2]; [by rewrite Hl|].
      destruct (settle accepts sched fuel _ w) as [rs w2].
      destruct (settle accepts sched fuel _ w') as [rs' w2'].
      simpl in *. by subst.
  - rewrite (insert_no_table _ _ _ w Hl), (insert_no_table _ _ _ w' Heq).
    destruct (IH _ w w' Hall') as [H1 H2]; [by rewrite Hl|].
    destruct (settle accepts sched fuel _ w) as [rs w2].
    destruct (settle accepts sched fuel _ w') as [rs' w2'].
    simpl in *. by subst.
Qed.

(** The method after its read and clear succeeded, in terms of [settle]. *)
Lemma migrate_settles s w rows old :
  mysql_db w !! table s = Some rows →
  sqlite_db w !! table s = Some old →
  migrate accepts sched s w
  = (result_of
       (settle accepts sched (length (issued s rows)) (issued s rows)
          (with_table (table s) []
             (w +ₑ [Query Mysql (SelectAll (table s)) []]
                +ₑ [Query Sqlite (DeleteFrom (table s)) []])
           +ₑ issue_events s rows)).1,
     (settle accepts sched (length (issued s rows)) (issued s rows)
        (with_table (table s) []
           (w +ₑ [Query Mysql (SelectAll (table s)) []]
              +ₑ [Query Sqlite (DeleteFrom (table s)) []])
         +ₑ issue_events s rows)).2).
Proof.
  intros Hr Hd. unfold migrate, query, bind, emit; simpl.
  unfold mysql_exec; simpl. rewrite Hr.
  unfold sqlite_exec; simpl.
  change (sqlite_db (w +ₑ [Query Mysql (SelectAll (table s)) []]))
    with (sqlite_db w).
  rewrite Hd, issue_inserts_spec. unfold promise_all, result_of, with_table.
  destruct (settle accepts sched _ _ _) as [rs w2]. cbn [fst snd].
  by destruct (first_rejection rs).
Qed.

(** The outcome of a method and the rows it leaves in its table depend
    on the source table and on whether the destination has the table;
    on the rows of the destination table only when the read fails. *)
Lemma migrate_agree s w w' :
  mysql_db w' !! table s = mysql_db w !! table s →
  (mysql_db w !! table s = None →
   sqlite_db w' !! table s = sqlite_db w !! table s) →
  (is_Some (sqlite_db w' !! table s) ↔ is_Some (sqlite_db w !! table s)) →
  (migrate accepts sched s w').1 = (migrate accepts sched s w).1
  ∧ sqlite_db (migrate accepts sched s w').2 !! table s
    = sqlite_db (migrate accepts sched s w).2 !! table s.
Proof.
  intros Hsrc Hunread Hsome.
  destruct (mysql_db w !! table s) as [rows|] eqn:Hr.
  2:{ rewrite (migrate_read_fails accepts sched s w Hr).
      rewrite (migrate_read_fails accepts sched s w' Hsrc). split; [done|].
      by apply Hunread. }
  destruct (sqlite_db w !! table s) as [old|] eqn:Hd.
  2:{ assert (sqlite_db w' !! table s = None) as Hd'.
      { apply eq_None_not_Some. intros H. apply Hsome in H. by destruct H. }
      rewrite (migrate_clear_fails accepts sched s w rows Hr Hd).
      rewrite (migrate_clear_fails accepts sched s w' rows Hsrc Hd').
      split; [done|]. cbn [snd]. rewrite !sqlite_db_add_events. by rewrite Hd, Hd'. }
  destruct (proj2 Hsome (mk_is_Some _ _ eq_refl)) as [old' Hd'].
  rewrite (migrate_settles s w rows old Hr Hd).
  rewrite (migrate_settles s w' rows old' Hsrc Hd'). cbn [fst snd].
  edestruct (settle_agree (table s) (columns s) (length (issued s rows))
               (issued s rows)) as [H1 H2]; [| |rewrite H1; split; [done|exact H2]].
  - unfold issued. apply Forall_fmap, Forall_true. done.
  - rewrite !sqlite_db_add_events. by rewrite !lookup_with_table.
Qed.

(** X4. A method replaces, it does not merge: once the read succeeds
    and the destination has the table, the outcome of the step and the
    rows it leaves in the table are the same whatever rows the table held
    before. *)
Theorem migrate_ignores_old_rows s w w' rows old old' :
  mysql_db w !! table s = Some rows →
  mysql_db w' !! table s = Some rows →
  sqlite_db w !! table s = Some old →
  sqlite_db w' !! table s = Some old' →
  (migrate accepts sched s w').1 = (migrate accepts sched s w).1
  ∧ sqlite_db (migrate accepts sched s w').2 !! table s
    = sqlite_db (migrate accepts sched s w).2 !! table s.
Proof.
  intros Hr Hr' Hd Hd'. apply migrate_agree.
  - by rewrite Hr, Hr'.
  - by rewrite Hr.
  - by rewrite Hd, Hd'.
Qed.

(** ** What the result of a run depends on *)

Lemma plan_tables_NoDup :
  NoDup ((λ ls : string * TableSpec, table ls.2) <$> plan).
Proof. apply (bool_decide_unpack _). by vm_compute. Qed.

Lemma plan_specs : Forall (λ ls : string * TableSpec, ls.2 ∈ all_specs) plan.
Proof.
  apply Forall_forall. intros ls Hin. by apply (list_elem_of_fmap_2 snd) in Hin.
Qed.

(** Two sequences of steps from worlds that agree on the source, and on
    the destination as far as the steps look at it, have the same outcomes
    and leave the same rows in the tables of the steps. *)
Lemma runs_agree steps bs bs' w w1 w' w1' :
  NoDup ((λ ls : string * TableSpec, table ls.2) <$> steps) →
  runs accepts sched steps bs w w1 →
  runs accepts sched steps bs' w' w1' →
  mysql_db w' = mysql_db w →
  (∀ ls, ls ∈ steps →
         (mysql_db w !! table ls.2 = None →
          sqlite_db w' !! table ls.2 = sqlite_db w !! table ls.2)
         ∧ (is_Some (sqlite_db w' !! table ls.2)
            ↔ is_Some (sqlite_db w !! table ls.2))) →
  bs'.*2 = bs.*2
  ∧ ∀ ls, ls ∈ steps →
          sqlite_db w1' !! table ls.2 = sqlite_db w1 !! table ls.2.
Proof.
  revert bs bs' w w'.
  induction steps as [|[label s] steps IH];
    intros [|b bs] [|b' bs'] w w' Hnd Hruns Hruns' Hsrc Hdst; try done.
  { split; [done|]. intros ls Hin. by apply not_elem_of_nil in Hin. }
  rewrite fmap_cons in Hnd. apply NoDup_cons in Hnd as [Hfresh Hnd].
  cbn [runs] in Hruns, Hruns'.
  destruct Hruns as (wa & Hmig & _ & Hruns).
  destruct Hruns' as (wa' & Hmig' & _ & Hruns').
  destruct (Hdst (label, s)) as [Hun Hsome]; [left|]. cbn [snd] in Hun, Hsome.
  destruct (migrate_agree s (w +ₑ [start label]) (w' +ₑ [start label]))
    as [Hout Htab].
  { rewrite !mysql_db_add_events. by rewrite Hsrc. }
  { rewrite mysql_db_add_events, !sqlite_db_add_events. exact Hun. }
  { rewrite !sqlite_db_add_events. exact Hsome. }
  rewrite Hmig, Hmig' in Hout, Htab. cbn [fst snd] in Hout, Htab.
  destruct (migrate_frame accepts sched s (w +ₑ [start label]))
    as (_ & _ & _ & _ & Hs1 & Hd1).
  destruct (migrate_frame accepts sched s (w' +ₑ [start label]))
    as (_ & _ & _ & _ & Hs1' & Hd1').
  rewrite Hmig in Hs1, Hd1. rewrite Hmig' in Hs1', Hd1'. cbn [snd] in *.
  rewrite mysql_db_add_events in Hs1, Hs1'.
  setoid_rewrite sqlite_db_add_events in Hd1.
  setoid_rewrite sqlite_db_add_events in Hd1'.
  assert (Hne : ∀ ls, ls ∈ steps → table ls.2 ≠ table s).
  { intros ls Hin Heq. apply Hfresh. rewrite <- Heq.
    by apply (list_elem_of_fmap_2 (λ ls : string * TableSpec, table ls.2)) in Hin. }
  destruct (IH bs bs' (wa +ₑ [fin b.2]) (wa' +ₑ [fin b'.2]) Hnd Hruns Hruns')
    as [Houts Htabs].
  { rewrite !mysql_db_add_events. by rewrite Hs1, Hs1'. }
  { intros ls Hin. rewrite mysql_db_add_events, !sqlite_db_add_events.
    rewrite Hs1, (Hd1 _ (Hne ls Hin)), (Hd1' _ (Hne ls Hin)).
    apply Hdst. by right. }
  destruct (runs_frame accepts sched _ _ _ _ Hruns) as [_ Hf].
  destruct (runs_frame accepts sched _ _ _ _ Hruns') as [_ Hf'].
  setoid_rewrite sqlite_db_add_events in Hf.
  setoid_rewrite sqlite_db_add_events in Hf'.
  split.
  - rewrite !fmap_cons. by rewrite Hout, Houts.
  - intros ls [->|Hin]%elem_of_cons; [|by apply Htabs].
    cbn [snd]. by rewrite (Hf _ Hfresh), (Hf' _ Hfresh).
Qed.

(** A table of the steps whose read fails keeps its rows throughout. *)
Lemma runs_unread steps bs w w1 ls :
  NoDup ((λ ls : string * TableSpec, table ls.2) <$> steps) →
  runs accepts sched steps bs w w1 →
  ls ∈ steps → mysql_db w !! table ls.2 = None →
  sqlite_db w1 !! table ls.2 = sqlite_db w !! table ls.2.
Proof.
  revert bs w. induction steps as [|[label s] steps IH];
    intros [|b bs] w Hnd Hruns Hin Hr; try done.
  { by apply not_elem_of_nil in Hin. }
  rewrite fmap_cons in Hnd. apply NoDup_cons in Hnd as [Hfresh Hnd].
  cbn [runs] in Hruns. destruct Hruns as (wa & Hmig & _ & Hruns).
  destruct (migrate_frame accepts sched s (w +ₑ [start label]))
    as (_ & _ & _ & _ & Hs1 & Hd1).
  rewrite Hmig in Hs1, Hd1. cbn [snd] in *.
  rewrite mysql_db_add_events in Hs1.
  setoid_rewrite sqlite_db_add_events in Hd1.
  apply elem_of_cons in Hin as [->|Hin]; cbn [snd] in *.
  - destruct (runs_frame accepts sched _ _ _ _ Hruns) as [_ Hf].
    setoid_rewrite sqlite_db_add_events in Hf. rewrite (Hf _ Hfresh).
    rewrite (migrate_read_fails accepts sched s (w +ₑ [start label])) in Hmig
      by by rewrite mysql_db_add_events.
    by injection Hmig as _ <-.
  - rewrite (IH bs (wa +ₑ [fin b.2]) Hnd Hruns Hin).
    + rewrite sqlite_db_add_events. apply Hd1. intros Heq. apply Hfresh.
      rewrite <- Heq.
      by apply (list_elem_of_fmap_2 (λ ls : string * TableSpec, table ls.2)) in Hin.
    + by rewrite mysql_db_add_events, Hs1.
Qed.

(** The data side of a run: with both connections up the steps run from
    the databases as they were and the run ends with what they left;
    otherwise the destination is as it was. *)
Lemma execute_data config w :
  if mysql_up w && sqlite_up w
  then ∃ bs w0 w2,
         runs accepts sched plan bs w0 w2
         ∧ mysql_db w0 = mysql_db w ∧ sqlite_db w0 = sqlite_db w
         ∧ sqlite_db (execute accepts sched config w).2 = sqlite_db w2
  else sqlite_db (execute accepts sched config w).2 = sqlite_db w.
Proof.
  destruct (mysql_up w) eqn:Hm, (sqlite_up w) eqn:Hs; cbn [andb].
  2,3,4: rewrite execute_provisions, Hm, Hs; cbn [andb snd];
         unfold provisioned; by rewrite Hm, Hs.
  destruct (execute_connected accepts sched config w Hm Hs)
    as (ok & evs & bs & w2 & _ & _ & Hruns & _ & _ & _ & Hex).
  exists bs, (provisioned config w +ₑ (evs ++ verdict ok)), w2.
  split_and!; try done.
  - unfold provisioned. by rewrite Hm, Hs.
  - unfold provisioned. by rewrite Hm, Hs.
  - by rewrite Hex.
Qed.

(** Reachability, source and the set of destination tables after a run. *)
Lemma execute_env config w :
  mysql_up (execute accepts sched config w).2 = mysql_up w
  ∧ sqlite_up (execute accepts sched config w).2 = sqlite_up w
  ∧ mysql_db (execute accepts sched config w).2 = mysql_db w.
Proof.
  apply (execute_inv
           (λ w w', mysql_up w' = mysql_up w ∧ sqlite_up w' = sqlite_up w
                    ∧ mysql_db w' = mysql_db w)); try done.
  - intros a b c (H1 & H2 & H3) (H4 & H5 & H6). by rewrite H4, H5, H6.
  - intros s w0 _.
    destruct (migrate_env s w0) as (H1 & H2 & _).
    by destruct (migrate_frame accepts sched s w0) as (_ & _ & _ & _ & H3 & _).
Qed.

Lemma runs_dom bs w w1 :
  runs accepts sched plan bs w w1 → dom (sqlite_db w1) = dom (sqlite_db w).
Proof.
  apply (runs_inv (λ w w', dom (sqlite_db w') = dom (sqlite_db w))); try done.
  - intros a b c H1 H2. by rewrite H2.
  - intros s w0 _. apply migrate_dom.
  - apply plan_specs.
Qed.

Lemma plan_tables_agree bs bs' w0 w2 w0' w2' :
  runs accepts sched plan bs w0 w2 →
  runs accepts sched plan bs' w0' w2' →
  (∀ ls, ls ∈ plan → sqlite_db w2' !! table ls.2 = sqlite_db w2 !! table ls.2) →
  (∀ t, t ∉ (λ ls : string * TableSpec, table ls.2) <$> plan →
        sqlite_db w0' !! t = sqlite_db w2 !! t) →
  sqlite_db w2' = sqlite_db w2.
Proof.
  intros Hruns Hruns' Hplan Hrest. apply map_eq. intros t.
  destruct (decide (t ∈ (λ ls : string * TableSpec, table ls.2) <$> plan))
    as [(ls & -> & Hin)%list_elem_of_fmap|Hout].
  - by apply Hplan.
  - destruct (runs_frame accepts sched _ _ _ _ Hruns') as [_ Hf'].
    rewrite (Hf' _ Hout). by apply Hrest.
Qed.

(** X6. The verdict of the validation changes no row.  Two runs with the
    same configuration, from worlds that differ only in what the catalog
    queries answer, leave the same destination: a run whose validation
    fails migrates what a validated run migrates. *)
Theorem execute_ignores_verdict config w w' :
  same_but_catalogs w w' →
  sqlite_db (execute accepts sched config w').2
  = sqlite_db (execute accepts sched config w).2.
Proof.
  intros [(Hm & Hs & Hsrc & Hdst) _].
  pose proof (execute_data config w) as H.
  pose proof (execute_data config w') as H'.
  rewrite Hm, Hs in H'.
  destruct (mysql_up w && sqlite_up w); [|by rewrite H, H'].
  destruct H as (bs & w0 & w2 & Hruns & Hs0 & Hd0 & ->).
  destruct H' as (bs' & w0' & w2' & Hruns' & Hs0' & Hd0' & ->).
  destruct (runs_agree plan bs bs' w0 w2 w0' w2' plan_tables_NoDup Hruns Hruns')
    as [_ Hplan].
  - by rewrite Hs0, Hs0'.
  - intros ls _. by rewrite Hd0, Hd0', Hdst.
  - eapply plan_tables_agree; [exact Hruns|exact Hruns'|exact Hplan|].
    intros t Hout. destruct (runs_frame accepts sched _ _ _ _ Hruns) as [_ Hf].
    by rewrite (Hf _ Hout), Hd0, Hd0', Hdst.
Qed.

(** X5. Migrating twice is migrating once: a second run, started in the
    world the first one left, leaves the destination exactly as the first
    run left it. *)
Theorem execute_twice config config' w :
  sqlite_db (execute accepts sched config'
               (execute accepts sched config w).2).2
  = sqlite_db (execute accepts sched config w).2.
Proof.
  destruct (execute_env config w) as (Hm & Hs & Hsrc).
  pose proof (execute_data config w) as H.
  pose proof (execute_data config' (execute accepts sched config w).2) as H'.
  rewrite Hm, Hs in H'.
  destruct (mysql_up w && sqlite_up w); [|done].
  destruct H as (bs & w0 & w2 & Hruns & Hs0 & Hd0 & Hfin).
  destruct H' as (bs' & w0' & w2' & Hruns' & Hs0' & Hd0' & ->).
  rewrite Hfin in *.
  destruct (runs_agree plan bs bs' w0 w2 w0' w2' plan_tables_NoDup Hruns Hruns')
    as [_ Hplan].
  - by rewrite Hs0, Hs0', Hsrc.
  - intros ls Hin. rewrite Hd0'. split.
    + intros Hr. by apply (runs_unread plan bs w0 w2 ls plan_tables_NoDup).
    + rewrite <- !elem_of_dom. by rewrite (runs_dom bs w0 w2 Hruns).
  - eapply plan_tables_agree; [exact Hruns|exact Hruns'|exact Hplan|].
    intros t Hout. by rewrite Hd0'.
Qed.

(** ** The validator as an observer *)

(** X8. [checkTables] only looks: it changes neither database nor the
    open connections.  It returns true after exactly the two catalog
    queries and no log line; it returns false after one error line, its
    last event, preceded by queries only.  The destination catalog is
    queried only if the source catalog query answered. *)
Theorem checkTables_only_observes w :
  mysql_db (checkTables accepts w).2 = mysql_db w
  ∧ sqlite_db (checkTables accepts w).2 = sqlite_db w
  ∧ opened (checkTables accepts w).2 = opened w
  ∧ ∃ b evs,
      checkTables accepts w = (Ok b, w +ₑ evs)
      ∧ (b = true →
         evs = [Query Mysql ShowTables []; Query Sqlite SelectSqliteMaster []])
      ∧ (b = false →
         ∃ pre msg payload,
           evs = pre ++ [Log Error msg payload] ∧ Forall is_query pre)
      ∧ (Query Sqlite SelectSqliteMaster [] ∈ evs → is_Some (mysql_catalog w)).
Proof.
  destruct (mysql_catalog w) as [mt|] eqn:Hm.
  2:{ rewrite checkTables_mysql_fails by done. split_and!; try done.
      do 2 eexists. split; [done|]. split_and!; [done| |].
      - intros _. exists [Query Mysql ShowTables []]. do 2 eexists; (split; [reflexivity|by repeat constructor]).
      - intros Hin. apply elem_of_cons in Hin as [?|Hin]; [done|].
        apply elem_of_cons in Hin as [?|Hin]; [done|].
        by apply not_elem_of_nil in Hin. }
  destruct (sqlite_catalog w) as [st|] eqn:Hs.
  2:{ rewrite (checkTables_sqlite_fails _ _ mt) by done. split_and!; try done.
      do 2 eexists. split; [done|]. split_and!; [done| |done].
      intros _.
      exists [Query Mysql ShowTables []; Query Sqlite SelectSqliteMaster []].
      do 2 eexists; (split; [reflexivity|by repeat constructor]). }
  rewrite (checkTables_answered _ _ mt st) by done.
  destruct (missing (mysql_names mt) expectedTables);
    [destruct (missing (sqlite_names st) expectedTables)|];
    (split_and!; try done); do 2 eexists; (split; [done|]);
    (split_and!; [done| |done]); intros Hb; try done;
    exists [Query Mysql ShowTables []; Query Sqlite SelectSqliteMaster []];
    do 2 eexists; (split; [reflexivity|by repeat constructor]).
Qed.

Lemma missing_ext found found' expected :
  (∀ v, v ∈ found' ↔ v ∈ found) →
  missing found' expected = missing found expected.
Proof.
  intros Hext. unfold missing. apply list_filter_iff. intros n.
  by rewrite Hext.
Qed.

(** X9. [checkTables] reads a catalog answer as a set of names: two
    pairs of answers that list the same names, in whatever order and
    however often, give the same result and the same log line.  The names
    a line reports are in the order of [expectedTables], each once. *)
Theorem checkTables_reads_catalogs_as_sets w w' mt st mt' st' :
  mysql_catalog w = Some mt → sqlite_catalog w = Some st →
  mysql_catalog w' = Some mt' → sqlite_catalog w' = Some st' →
  (∀ v, v ∈ mysql_names mt' ↔ v ∈ mysql_names mt) →
  (∀ v, v ∈ sqlite_names st' ↔ v ∈ sqlite_names st) →
  (∃ b evs, checkTables accepts w = (Ok b, w +ₑ evs)
            ∧ checkTables accepts w' = (Ok b, w' +ₑ evs))
  ∧ missing (mysql_names mt) expectedTables `sublist_of` expectedTables
  ∧ missing (sqlite_names st) expectedTables `sublist_of` expectedTables
  ∧ NoDup (missing (mysql_names mt) expectedTables)
  ∧ NoDup (missing (sqlite_names st) expectedTables).
Proof.
  intros Hm Hs Hm' Hs' Hext1 Hext2.
  assert (Hnd : NoDup expectedTables) by (apply (bool_decide_unpack _); by vm_compute).
  split_and!.
  - rewrite (checkTables_answered _ _ mt st) by done.
    rewrite (checkTables_answered _ _ mt' st') by done.
    rewrite (missing_ext _ _ _ Hext1), (missing_ext _ _ _ Hext2).
    destruct (missing (mysql_names mt) expectedTables);
      [destruct (missing (sqlite_names st) expectedTables)|]; by do 2 eexists.
  - apply sublist_filter.
  - apply sublist_filter.
  - by apply NoDup_filter.
  - by apply NoDup_filter.
Qed.

(** ** The options of the two connections *)

Lemma get_prop_obj_set obj k v k' :
  get_prop (obj_set obj k v) k'
  = if decide (k = k') then Some v else get_prop obj k'.
Proof.
  induction obj as [|[k0 v0] obj IH]; simpl.
  - done.
  - destruct (decide (k0 = k)) as [->|Hne]; simpl.
    + by destruct (decide (k = k')).
    + destruct (decide (k0 = k')) as [->|Hne'].
      * by rewrite decide_False by done.
      * exact IH.
Qed.

Lemma get_prop_pick names obj k :
  get_prop (pick names obj) k
  = if decide (k ∈ names) then get_prop obj k else None.
Proof.
  induction names as [|n names IH]; cbn [pick].
  - destruct (decide (k ∈ [])) as [H|]; [by apply not_elem_of_nil in H|done].
  - destruct (decide (n = k)) as [->|Hne].
    + rewrite (decide_True (P := k ∈ k :: names)) by left.
      destruct (get_prop obj k) as [v|] eqn:Hk; simpl.
      * by rewrite decide_True.
      * rewrite IH. by destruct (decide (k ∈ names)).
    + assert (get_prop (pick names obj) k
              = if decide (k ∈ n :: names) then get_prop obj k else None) as Hrest.
      { rewrite IH. destruct (decide (k ∈ names)) as [Hin|Hout].
        - rewrite decide_True; [done|by right].
        - rewrite decide_False; [done|].
          intros [?|?]%elem_of_cons; [by subst|done]. }
      destruct (get_prop obj n); simpl; [by rewrite decide_False|done].
Qed.

Lemma migrate_no_connect s w :
  ∃ evs, trace (migrate accepts sched s w).2 = trace w ++ evs
         ∧ filter is_connect evs = [].
Proof.
  destruct (migrate_frame accepts sched s w) as (body & Htr & [_ Hall] & _).
  exists body. split; [done|]. cbn [fst] in Hall. clear Htr.
  induction Hall as [|e evs He _ IH]; [done|].
  rewrite filter_cons_False; [done|]. destruct e; simpl in *; by try intros [].
Qed.

(** X10. Every run attempts both connections, the source first, each
    once, and with these options.  The source connection gets the host,
    password, username, database and port of the configuration, as far as
    it has them, under the name and type mysql, and nothing else; the
    destination connection gets the name and type sqlite and the
    configuration's filename as its database, and nothing else: no source
    credential reaches it. *)
Theorem execute_connects_with config w :
  (∃ evs, trace (execute accepts sched config w).2 = trace w ++ evs
          ∧ filter is_connect evs
            = [Connect Mysql (mysql_options config);
               Connect Sqlite (sqlite_options config)])
  ∧ (∀ k, get_prop (mysql_options config) k
          = if decide (k = "type") then Some (SStr "mysql")
            else if decide (k = "name") then Some (SStr "mysql")
            else if decide (k ∈ ["host"; "password"; "username"; "database"; "port"])
            then get_prop config k else None)
  ∧ (∀ k, get_prop (sqlite_options config) k
          = if decide (k = "name") then Some (SStr "sqlite")
            else if decide (k = "type") then Some (SStr "sqlite")
            else if decide (k = "database") then get_prop config "filename"
            else None).
Proof.
  split_and!.
  - rewrite execute_provisions.
    assert (Hprov : filter is_connect (provisioning_events config w)
                    = [Connect Mysql (mysql_options config);
                       Connect Sqlite (sqlite_options config)]).
    { unfold provisioning_events, connect_events.
      by destruct (mysql_up w), (sqlite_up w). }
    assert (Htr : trace (provisioned config w)
                  = trace w ++ provisioning_events config w).
    { unfold provisioned. by destruct (mysql_up w), (sqlite_up w). }
    destruct (mysql_up w && sqlite_up w).
    + destruct (migrating_inv
                  (λ w w', ∃ evs, trace w' = trace w ++ evs
                                  ∧ filter is_connect evs = []))
        with (w := provisioned config w) as (evs & Hevs & Hnone).
      * intros w0. exists []. by rewrite app_nil_r.
      * intros a b c (e1 & H1 & F1) (e2 & H2 & F2). exists (e1 ++ e2). split.
        -- by rewrite H2, H1, <- app_assoc.
        -- by rewrite filter_app, F1, F2.
      * intros w0 e _ Hnc. exists [e]. split; [done|].
        by rewrite filter_cons_False.
      * intros w0 c. exists []. by rewrite app_nil_r.
      * intros s w0 _. apply migrate_no_connect.
      * exists (provisioning_events config w ++ evs). split.
        -- by rewrite Hevs, Htr, <- app_assoc.
        -- by rewrite filter_app, Hprov, Hnone.
    + eexists. split.
      * cbn [snd]. change (trace (?x +ₑ ?e)) with (trace x ++ e).
        by rewrite Htr, <- app_assoc.
      * by rewrite filter_app, Hprov.
  - intros k. unfold mysql_options.
    rewrite !get_prop_obj_set, get_prop_pick.
    destruct (decide ("type" = k)) as [<-|Hne1].
    { by rewrite decide_True. }
    rewrite (decide_False (P := k = "type")) by done.
    destruct (decide ("name" = k)) as [<-|Hne2].
    { by rewrite decide_True. }
    by rewrite (decide_False (P := k = "name")) by done.
  - intros k. unfold sqlite_options. rewrite get_prop_pick.
    rewrite decide_True by left. simpl.
    destruct (decide ("name" = k)) as [<-|Hne1].
    { by rewrite decide_True. }
    rewrite (decide_False (P := k = "name")) by done.
    destruct (decide ("type" = k)) as [<-|Hne2].
    { by rewrite decide_True. }
    rewrite (decide_False (P := k = "type")) by done.
    destruct (get_prop config "filename") as [f|]; simpl.
    + destruct (decide ("database" = k)) as [<-|Hne3].
      * by rewrite decide_True.
      * by rewrite decide_False.
    + by destruct (decide (k = "database")).
Qed.

(** ** The Migrating lines *)

Lemma issue_events_entities s rows :
  filter is_entity (issue_events s rows)
  = match entity s with
    | Some (what, col) => (λ row, LogEntity what (get_prop row col)) <$> rows
    | None => []
    end.
Proof.
  unfold issue_events. induction rows as [|row rows IH].
  - by destruct (entity s) as [[??]|].
  - rewrite bind_cons, filter_app, IH.
    by destruct (entity s) as [[??]|].
Qed.

(** X11. After a successful read and clear, the methods of channels,
    groups and users log one Migrating line per row read, in the order
    read, showing the row's [name]; the other ten methods log none. *)
Theorem migrate_logs_entities s w rows old :
  s ∈ all_specs →
  mysql_db w !! table s = Some rows →
  sqlite_db w !! table s = Some old →
  ∃ evs, trace (migrate accepts sched s w).2 = trace w ++ evs
         ∧ filter is_entity evs = entity_lines s rows.
Proof.
  intros Hs Hr Hd.
  destruct (migrate_writes accepts sched s w rows old Hr Hd) as (rs & -> & _).
  eexists. split; [done|].
  rewrite !filter_cons_False by by intros [].
  rewrite issue_events_entities.
  unfold all_specs, plan in Hs. simpl in Hs.
  repeat (apply elem_of_cons in Hs as [->|Hs]; [reflexivity|]).
  by apply not_elem_of_nil in Hs.
Qed.

(** ** A destination without constraints *)

Lemma Settled_all_accepted t cols content rs :
  (∀ t c r, accepts t c r = true) →
  Settled accepts t cols content rs → Forall is_ok rs.
Proof.
  intros Hall. induction 1 as [|? ? ? ? ? IH|? ? ? Ha ? IH].
  - constructor.
  - by constructor.
  - by rewrite Hall in Ha.
Qed.

Lemma migrate_accepting s w rows old :
  (∀ t c r, accepts t c r = true) →
  mysql_db w !! table s = Some rows →
  sqlite_db w !! table s = Some old →
  (migrate accepts sched s w).1 = Ok ()
  ∧ ∃ dst, sqlite_db (migrate accepts sched s w).2 !! table s = Some dst
           ∧ dst ≡ₚ project s <$> rows.
Proof.
  intros Hall Hr Hd.
  destruct (migrate_writes accepts sched s w rows old Hr Hd)
    as (rs & -> & Hperm & Hset).
  pose proof (Settled_all_accepted _ _ _ _ Hall Hset) as Hok.
  split.
  - cbn [fst]. unfold result_of.
    by rewrite (proj2 (first_rejection_None rs) Hok).
  - exists (kept (columns s) rs). split; [apply lookup_with_table|].
    rewrite kept_all_ok by done. by rewrite Hperm, stored_issued.
Qed.

End More.

(** X7. With a destination that rejects no row, a step whose read and
    clear succeeded always returns, and the order in which the destination
    settles the inserts shows only in the order of the rows: under any two
    orders the table holds the same multiset. *)
Theorem migrate_whatever_the_order accepts sched sched' s w rows old :
  (∀ t c r, accepts t c r = true) →
  mysql_db w !! table s = Some rows →
  sqlite_db w !! table s = Some old →
  (migrate accepts sched s w).1 = Ok ()
  ∧ (migrate accepts sched' s w).1 = Ok ()
  ∧ ∃ dst dst',
      sqlite_db (migrate accepts sched s w).2 !! table s = Some dst
      ∧ sqlite_db (migrate accepts sched' s w).2 !! table s = Some dst'
      ∧ dst ≡ₚ dst'
      ∧ length dst = length rows.
Proof.
  intros Hall Hr Hd.
  destruct (migrate_accepting accepts sched s w rows old Hall Hr Hd)
    as (H1 & dst & H2 & H3).
  destruct (migrate_accepting accepts sched' s w rows old Hall Hr Hd)
    as (H1' & dst' & H2' & H3').
  split; [done|]. split; [done|]. exists dst, dst'.
  split_and!; try done.
  - by rewrite H3, H3'.
  - by rewrite H3, length_fmap.
Qed.

(** ** Whole runs *)

Section Runs.

Variable accepts : string → list Row → Row → bool.
Variable sched : list Pending → nat.



(** X15. A table the source cannot give is not cleared: whatever else
    happens in the run, each of the thirteen destination tables whose read
    fails holds at the end of the run what it held before. *)
Theorem execute_keeps_unreadable_tables config w t :
  t ∈ migration_order →
  mysql_db w !! t = None →
  sqlite_db (execute accepts sched config w).2 !! t = sqlite_db w !! t.
Proof.
  intros Hin Hr.
  pose proof (execute_data accepts sched config w) as H.
  destruct (mysql_up w && sqlite_up w); [|by rewrite H].
  destruct H as (bs & w0 & w2 & Hruns & Hs0 & Hd0 & ->).
  change migration_order with ((λ ls : string * TableSpec, table ls.2) <$> plan) in Hin.
  apply list_elem_of_fmap in Hin as (ls & -> & Hin).
  rewrite <- Hd0.
  apply (runs_unread accepts sched plan bs w0 w2 ls plan_tables_NoDup Hruns Hin).
  by rewrite Hs0.
Qed.

End Runs.

(** ** The further properties on the example worlds *)

Lemma migrate_ignores_old_rows_witness :
  mysql_db stale_servers !! table serversSpec = Some (servers [1; 2; 3]%Z)
  ∧ mysql_db other_servers !! table serversSpec = Some (servers [1; 2; 3]%Z)
  ∧ sqlite_db stale_servers !! table serversSpec = Some (servers [1; 2; 3; 4; 5]%Z)
  ∧ sqlite_db other_servers !! table serversSpec = Some (servers [7]%Z)
  ∧ (migrate unique_rows second_first serversSpec other_servers).1
    = (migrate unique_rows second_first serversSpec stale_servers).1
  ∧ sqlite_db (migrate unique_rows second_first serversSpec other_servers).2
      !! table serversSpec
    = sqlite_db (migrate unique_rows second_first serversSpec stale_servers).2
        !! table serversSpec.
Proof.
  do 4 (split; [reflexivity|]).
  exact (migrate_ignores_old_rows unique_rows second_first serversSpec
           stale_servers other_servers _ _ _ eq_refl eq_refl eq_refl eq_refl).
Defined.

Lemma execute_ignores_verdict_witness :
  same_but_catalogs stale_servers stale_servers_validated
  ∧ (checkTables unique_rows stale_servers).1 = Ok false
  ∧ (checkTables unique_rows stale_servers_validated).1 = Ok true
  ∧ sqlite_db (execute unique_rows second_first example_config
                 stale_servers_validated).2
    = sqlite_db (execute unique_rows second_first example_config stale_servers).2.
Proof.
  assert (H : same_but_catalogs stale_servers stale_servers_validated)
    by (repeat split; reflexivity).
  split; [exact H|]. split; [by vm_compute|]. split; [by vm_compute|].
  exact (execute_ignores_verdict unique_rows second_first example_config
           stale_servers stale_servers_validated H).
Defined.

Lemma migrate_whatever_the_order_witness :
  (∀ t c r, accepts_all t c r = true)
  ∧ mysql_db stale_servers !! table serversSpec = Some (servers [1; 2; 3]%Z)
  ∧ sqlite_db stale_servers !! table serversSpec = Some (servers [1; 2; 3; 4; 5]%Z)
  ∧ (migrate accepts_all second_first serversSpec stale_servers).1 = Ok ()
  ∧ (migrate accepts_all first_first serversSpec stale_servers).1 = Ok ()
  ∧ ∃ dst dst',
      sqlite_db (migrate accepts_all second_first serversSpec stale_servers).2
        !! table serversSpec = Some dst
      ∧ sqlite_db (migrate accepts_all first_first serversSpec stale_servers).2
          !! table serversSpec = Some dst'
      ∧ dst ≡ₚ dst'
      ∧ length dst = length (servers [1; 2; 3]%Z).
Proof.
  split; [reflexivity|]. split; [reflexivity|]. split; [reflexivity|].
  exact (migrate_whatever_the_order accepts_all second_first first_first
           serversSpec stale_servers _ _ (λ _ _ _, eq_refl) eq_refl eq_refl).
Defined.

(** The two orders do leave the rows in different order. *)
Example orders_differ :
  sqlite_db (migrate accepts_all second_first serversSpec stale_servers).2
    !! "servers" = Some (servers [2; 3; 1]%Z)
  ∧ sqlite_db (migrate accepts_all first_first serversSpec stale_servers).2
      !! "servers" = Some (servers [1; 2; 3]%Z).
Proof. by vm_compute. Qed.

Lemma shuffled_lists_same_names :
  (∀ v, v ∈ mysql_names (mysql_listing
                           (reverse (filter (λ n, n ≠ "users") expectedTables)
                              ++ ["acl"; "acl"]))
        ↔ v ∈ mysql_names (mysql_listing (filter (λ n, n ≠ "users") expectedTables)))
  ∧ (∀ v, v ∈ sqlite_names (sqlite_listing ("meta" :: reverse expectedTables))
          ↔ v ∈ sqlite_names (sqlite_listing expectedTables)).
Proof.
  split; intros v; vm_compute mysql_names; vm_compute sqlite_names;
    rewrite !elem_of_cons, !elem_of_nil; tauto.
Qed.

Lemma checkTables_reads_catalogs_as_sets_witness :
  mysql_catalog users_unlisted
  = Some (mysql_listing (filter (λ n, n ≠ "users") expectedTables))
  ∧ sqlite_catalog users_unlisted = Some (sqlite_listing expectedTables)
  ∧ mysql_catalog users_unlisted_shuffled
    = Some (mysql_listing (reverse (filter (λ n, n ≠ "users") expectedTables)
                             ++ ["acl"; "acl"]))
  ∧ sqlite_catalog users_unlisted_shuffled
    = Some (sqlite_listing ("meta" :: reverse expectedTables))
  ∧ ∃ b evs,
      checkTables unique_rows users_unlisted = (Ok b, users_unlisted +ₑ evs)
      ∧ checkTables unique_rows users_unlisted_shuffled
        = (Ok b, users_unlisted_shuffled +ₑ evs).
Proof.
  do 4 (split; [reflexivity|]).
  exact (proj1 (checkTables_reads_catalogs_as_sets unique_rows
                  users_unlisted users_unlisted_shuffled _ _ _ _
                  eq_refl eq_refl eq_refl eq_refl
                  (proj1 shuffled_lists_same_names)
                  (proj2 shuffled_lists_same_names))).
Defined.

Lemma migrate_logs_entities_witness :
  channelsSpec ∈ all_specs
  ∧ mysql_db two_channels !! table channelsSpec
    = Some [channel 0 "Root"; channel 1 "Lobby"]
  ∧ sqlite_db two_channels !! table channelsSpec = Some []
  ∧ ∃ evs,
      trace (migrate unique_rows second_first channelsSpec two_channels).2
      = trace two_channels ++ evs
      ∧ filter is_entity evs
        = entity_lines channelsSpec [channel 0 "Root"; channel 1 "Lobby"].
Proof.
  assert (H : channelsSpec ∈ all_specs) by (right; left).
  split; [exact H|]. split; [reflexivity|]. split; [reflexivity|].
  exact (migrate_logs_entities unique_rows second_first channelsSpec two_channels
           _ _ H eq_refl eq_refl).
Defined.

Example two_channels_lines :
  entity_lines channelsSpec [channel 0 "Root"; channel 1 "Lobby"]
  = [LogEntity "channel" (Some (SStr "Root"));
     LogEntity "channel" (Some (SStr "Lobby"))]
  ∧ entity_lines serversSpec (servers [1; 2; 3]%Z) = [].
Proof. split; reflexivity. Qed.

Lemma migrate_without_destination_table_witness :
  mysql_db no_destination_table !! table serversSpec = Some (servers [1; 2; 3]%Z)
  ∧ sqlite_db no_destination_table !! table serversSpec = None
  ∧ (migrate unique_rows second_first serversSpec no_destination_table).1
    = Throw (QueryError Sqlite (DeleteFrom (table serversSpec)) [])
  ∧ trace (migrate unique_rows second_first serversSpec no_destination_table).2
    = trace no_destination_table
        ++ [Query Mysql (SelectAll (table serversSpec)) [];
            Query Sqlite (DeleteFrom (table serversSpec)) []]
  ∧ sqlite_db (migrate unique_rows second_first serversSpec no_destination_table).2
    = sqlite_db no_destination_table.
Proof.
  split; [reflexivity|]. split; [reflexivity|].
  exact (migrate_without_destination_table unique_rows second_first serversSpec
           no_destination_table _ eq_refl eq_refl).
Defined.


Example full_schema_run :
  sqlite_db (execute accepts_all second_first example_config full_schema).2
    !! "servers" = Some (servers [2; 3; 1]%Z)
  ∧ sqlite_db (execute accepts_all second_first example_config full_schema).2
      !! "channels" = Some [channel 1 "Lobby"; channel 0 "Root"]
  ∧ filter is_step_error
      (trace (execute accepts_all second_first example_config full_schema).2) = [].
Proof. split_and!; by vm_compute. Qed.

Lemma execute_keeps_unreadable_tables_witness :
  "channels" ∈ migration_order
  ∧ mysql_db unreadable_channels !! "channels" = None
  ∧ sqlite_db (execute unique_rows second_first example_config
                 unreadable_channels).2 !! "channels"
    = sqlite_db unreadable_channels !! "channels".
Proof.
  assert (H : "channels" ∈ migration_order) by (right; left).
  split; [exact H|]. split; [reflexivity|].
  exact (execute_keeps_unreadable_tables unique_rows second_first example_config
           unreadable_channels "channels" H eq_refl).
Defined.
